(** * drop-task-backend: the catalog server, embedded and verified

    A shallow embedding of [src/server.js] (the current Express server) and of
    the ordering code of the earlier server version ([src/unnamed/part_000]).

    Conventions of the embedding.
    - The process-wide [state] object is threaded explicitly: every handler
      takes the state and returns the response, the new state and the lines
      it wrote with [console.log].
    - A JavaScript [Set] is a duplicate-free list in insertion order (what
      [Array.from(set)] yields); the search cache, a [Map] keyed by strings
      and never iterated, is a [gmap string _].
    - A JSON number is the exact rational value of the parsed double
      ([Qc], canonical rationals, so that [=] is numeric equality, which is
      what [===] and SameValueZero compute on numbers other than NaN).
      Infinity cannot pass any range check of the server and is not modelled.
    - Integers produced by [parseInt] and the pagination arithmetic are exact
      integers ([Z]); NaN is [None].  Doubles are exact on integers up to
      2^53, far above every bound the handlers compare against; a statement
      that echoes a parsed value assumes it at most 2^53.
    - Strings are compared, searched and printed character by character, as
      the code does.  [toLowerCase] and [trim] are the ECMAScript functions
      on ASCII strings; a statement whose conclusion depends on how a raw
      query string is normalized assumes the string ASCII ([ascii_only]). *)

From Stdlib Require Import Ascii String QArith Qcanon DecimalString DecimalPos.
From stdpp Require Import base decidable option numbers list strings gmap sorting.

Local Open Scope Z_scope.
Set Warnings "-register-all".

(** ** JavaScript [Set]: insertion-ordered, duplicate-free *)

Module JSSet.
Section jsset.
Context {A : Type} `{EqDecision A}.

Definition t := list A.

Definition empty : t := [].

(** [set.has(x)] *)
Definition has (s : t) (x : A) : bool := bool_decide (x ∈ s).

(** [set.add(x)]: a new element goes last, a present one changes nothing *)
Definition add (s : t) (x : A) : t := if has s x then s else s ++ [x].

(** [set.delete(x)] *)
Definition delete (s : t) (x : A) : t := filter (λ y, y ≠ x) s.

(** [new Set(iterable)] *)
Definition of_list (l : list A) : t := foldl add empty l.

(** [set.size] *)
Definition size (s : t) : Z := Z.of_nat (length s).

(** [Array.from(set)] *)
Definition to_array (s : t) : list A := s.
End jsset.
End JSSet.

(** ** Order Resolver: [applyCustomOrder] of server.js and the comparator
    sort of the earlier server *)

Section order_resolver.
Context {A : Type} `{EqDecision A}.

(** Loop 1 of [applyCustomOrder]:
    [for (const id of state.customOrder)
       if (remainingIds.has(id)) { orderedIds.push(id); remainingIds.delete(id); }]
    The loop state is the pair (orderedIds, remainingIds). *)
Definition customOrder_pass (customOrder : list A)
    (st : list A * JSSet.t (A:=A)) : list A * JSSet.t (A:=A) :=
  foldl (λ '(orderedIds, remainingIds) id,
           if JSSet.has remainingIds id
           then (orderedIds ++ [id], JSSet.delete remainingIds id)
           else (orderedIds, remainingIds))
        st customOrder.

(** Loop 2: [for (const id of ids) if (remainingIds.has(id)) orderedIds.push(id);] *)
Definition remaining_pass (ids : list A) (remainingIds : JSSet.t (A:=A))
    (orderedIds : list A) : list A :=
  foldl (λ orderedIds id,
           if JSSet.has remainingIds id then orderedIds ++ [id] else orderedIds)
        orderedIds ids.

(** [applyCustomOrder(ids)], with [state.customOrder] as an argument;
    [None] is JavaScript's [null] (every array, also the empty one, is truthy). *)
Definition applyCustomOrder (customOrder : option (list A)) (ids : list A) : list A :=
  match customOrder with
  | None => ids
  | Some order =>
      let '(orderedIds, remainingIds) :=
        customOrder_pass order ([], JSSet.of_list ids) in
      remaining_pass ids remainingIds orderedIds
  end.

(** [array.indexOf(x)]: index of the first occurrence, or -1 *)
Fixpoint indexOf (l : list A) (x : A) : Z :=
  match l with
  | [] => -1
  | y :: l' =>
      if decide (y = x) then 0
      else let i := indexOf l' x in if decide (i = -1) then -1 else i + 1
  end.

(** The comparator of the earlier server (part_000, lines 92-101), on ids *)
Definition order_compare (order : list A) (a b : A) : Z :=
  let aIndex := indexOf order a in
  let bIndex := indexOf order b in
  if decide (aIndex = -1 ∧ bIndex = -1) then 0
  else if decide (aIndex = -1) then 1
  else if decide (bIndex = -1) then -1
  else aIndex - bIndex.

(** [Array.prototype.sort(cmp)].  ECMAScript requires the sort to be stable;
    for a consistent comparator the result is then determined, and it is
    the one insertion from the right computes: an element goes before the
    first element it does not compare greater than. *)
Context {B : Type}.

Fixpoint sort_insert (cmp : B → B → Z) (x : B) (l : list B) : list B :=
  match l with
  | [] => [x]
  | y :: l' => if decide (cmp x y ≤ 0) then x :: y :: l' else y :: sort_insert cmp x l'
  end.

Fixpoint js_sort (cmp : B → B → Z) (l : list B) : list B :=
  match l with
  | [] => []
  | x :: l' => sort_insert cmp x (js_sort cmp l')
  end.

(** The ordering step of the earlier [GET /api/items]:
    [if (state.order) filteredItems.sort((a, b) => ... a.id ... b.id ...)] *)
Definition sort_by_order (id_of : B → A) (order : option (list A))
    (filteredItems : list B) : list B :=
  match order with
  | None => filteredItems
  | Some o => js_sort (λ a b, order_compare o (id_of a) (id_of b)) filteredItems
  end.
End order_resolver.

(** ** Strings: the built-ins the handlers call *)

(** Strings all of whose characters are ASCII (code below 128) *)
Fixpoint ascii_only (s : string) : bool :=
  match s with
  | EmptyString => true
  | String c s' => bool_decide (nat_of_ascii c < 128)%nat && ascii_only s'
  end.

(** [toLowerCase] and [trim] on ASCII strings: [toLowerCase] folds A-Z, [trim]
    strips the ASCII white space of ECMAScript (TAB, LF, VT, FF, CR, SP).
    Outside ASCII, ECMAScript also folds the other cased letters and strips
    U+00A0, U+FEFF, U+2028, U+2029 and the space separators; the functions
    below are not meant for such strings. *)
Definition char_toLowerCase (c : ascii) : ascii :=
  let n := nat_of_ascii c in
  if bool_decide (65 ≤ n ≤ 90)%nat then ascii_of_nat (n + 32) else c.

Fixpoint toLowerCase (s : string) : string :=
  match s with
  | EmptyString => EmptyString
  | String c s' => String (char_toLowerCase c) (toLowerCase s')
  end.

Definition is_white_space (c : ascii) : bool :=
  let n := nat_of_ascii c in
  bool_decide (9 ≤ n ≤ 13)%nat || bool_decide (n = 32)%nat.

Fixpoint trimStart (s : string) : string :=
  match s with
  | EmptyString => EmptyString
  | String c s' => if is_white_space c then trimStart s' else s
  end.

Definition trimEnd (s : string) : string := String.rev (trimStart (String.rev s)).

Definition trim (s : string) : string := trimEnd (trimStart s).

Fixpoint startsWith (s t : string) : bool :=
  match t, s with
  | EmptyString, _ => true
  | String _ _, EmptyString => false
  | String b t', String a s' => bool_decide (a = b) && startsWith s' t'
  end.

(** [s.includes(t)] *)
Fixpoint includes (s t : string) : bool :=
  startsWith s t ||
  match s with
  | EmptyString => false
  | String _ s' => includes s' t
  end.

(** [`${id}`] for an integer Number below 10^21: its decimal numeral *)
Definition decimal (z : Z) : string := NilZero.string_of_int (Z.to_int z).

(** [array.join(",")] on already rendered elements *)
Fixpoint join_comma (l : list string) : string :=
  match l with
  | [] => ""
  | [s] => s
  | s :: l' => s +:+ "," +:+ join_comma l'
  end.

(** ** Numbers *)

(** A JavaScript Number that is not NaN or an infinity. *)
Abbreviation number := Qc (only parsing).

Definition is_integer (n : number) : Prop := ∃ z : Z, n = Qc_of_Z z.

(** Numbers that [parseInt] and integer arithmetic produce: [None] is NaN. *)
Abbreviation int_or_NaN := (option Z) (only parsing).

(** [Math.max(a, x)] and [Math.min(a, x)] with a literal first argument:
    NaN if [x] is NaN. *)
Definition Math_max (a : Z) (x : int_or_NaN) : int_or_NaN := Z.max a <$> x.
Definition Math_min (a : Z) (x : int_or_NaN) : int_or_NaN := Z.min a <$> x.

Definition digit_value (radix : Z) (c : ascii) : option Z :=
  let n := Z.of_nat (nat_of_ascii c) in
  let d := if bool_decide (48 ≤ n ≤ 57) then Some (n - 48)
           else if bool_decide (97 ≤ n ≤ 122) then Some (n - 87)
           else if bool_decide (65 ≤ n ≤ 90) then Some (n - 55)
           else None in
  d ≫= λ v, if bool_decide (v < radix) then Some v else None.

(** The longest prefix of digits, read left to right; [None] when the string
    does not start with a digit. *)
Fixpoint parse_digits (radix : Z) (s : string) (acc : option Z) : option Z :=
  match s with
  | EmptyString => acc
  | String c s' =>
      match digit_value radix c with
      | Some v => parse_digits radix s' (Some (default 0 acc * radix + v))
      | None => acc
      end
  end.

(** [parseInt(string)] with no radix argument (ECMAScript 19.2.5): leading
    white space, a sign, a [0x]/[0X] prefix selecting radix 16, then the
    longest prefix of digits; NaN when there is none.  The result here is the
    integer the digits denote; the code's result is the nearest double, which
    is that integer when its magnitude is at most 2^53 (and is rounded, or
    infinite from 309 digits on, beyond). *)
Definition parseInt (input : string) : int_or_NaN :=
  let inputS := trimStart input in
  let '(sign, unsigned) :=
    match inputS with
    | String "-" rest => (-1, rest)
    | String "+" rest => (1, rest)
    | _ => (1, inputS)
    end in
  let '(radix, digits) :=
    match unsigned with
    | String "0" (String "x" rest) | String "0" (String "X" rest) => (16, rest)
    | _ => (10, unsigned)
    end in
  Z.mul sign <$> parse_digits radix digits None.

(** [Array.from({ length }, (_, i) => f(i))]; [i] is the index reached. *)
Fixpoint Array_from {T} (length : nat) (i : Z) (f : Z → T) : list T :=
  match length with
  | O => []
  | S n => f i :: Array_from n (i + 1) f
  end.

(** [array.slice(start, end)]; both arguments go through ToIntegerOrInfinity,
    which sends NaN to 0, and negative indices count from the end. *)
Definition slice {T} (l : list T) (start end_ : int_or_NaN) : list T :=
  let len := Z.of_nat (length l) in
  let clamp (rel : Z) := if bool_decide (rel < 0) then Z.max (len + rel) 0 else Z.min rel len in
  let k := clamp (default 0 start) in
  let final := clamp (default 0 end_) in
  take (Z.to_nat (Z.max (final - k) 0)) (drop (Z.to_nat k) l).

(** ** Request data *)

(** A parsed JSON value ([express.json()] fills [req.body] with one). *)
Inductive json :=
  | JNull
  | JBool (b : bool)
  | JNum (n : number)
  | JStr (s : string)
  | JArr (elements : list json)
  | JObj (fields : list (string * json)).

(** [body.name]: [None] is [undefined].  [JSON.parse] keeps the last of
    several equal keys; an array has no such property. *)
Definition get_field (name : string) (body : json) : option json :=
  match body with
  | JObj fields => snd <$> last (filter (λ kv, kv.1 = name) fields)
  | _ => None
  end.

(** ToBoolean of a possibly [undefined] JSON value *)
Definition truthy (v : option json) : bool :=
  match v with
  | None | Some JNull => false
  | Some (JBool b) => b
  | Some (JNum n) => bool_decide (n ≠ Qc_of_Z 0)
  | Some (JStr s) => bool_decide (s ≠ "")
  | Some (JArr _) | Some (JObj _) => true
  end.

(** A value of [req.query]: a string, or with repeated or bracketed keys an
    array or an object. *)
Inductive qval :=
  | QStr (s : string)
  | QArr (elements : list qval)
  | QObj (fields : list (string * qval)).

(** ToString of a query value *)
Fixpoint qval_toString (v : qval) : string :=
  match v with
  | QStr s => s
  | QArr l => join_comma (map qval_toString l)
  | QObj _ => "[object Object]"
  end.

(** [req.query] of [GET /api/items]; [None] is an absent parameter. *)
Record Query := {
  q_page : option qval;
  q_limit : option qval;
  q_search : option qval;
}.

(** ** The state and the responses *)

Record Item := {
  item_id : number;
  item_text : string;
  item_selected : bool;
}.

(** A value of [state.searchCache]: [{ ids, total }] *)
Record CacheEntry := {
  cache_ids : list number;
  cache_total : Z;
}.

Record State := {
  customOrder : option (list number);
  selectedItems : JSSet.t (A:=number);
  searchCache : gmap string CacheEntry;
}.

Definition initial_state : State :=
  {| customOrder := None; selectedItems := JSSet.empty; searchCache := ∅ |}.

Inductive response (T : Type) :=
  | Ok200 (body : T)
  | Err400 (error : string)
  | Err500 (error : string) (message : option string).
Arguments Ok200 {T} body.
Arguments Err400 {T} error.
Arguments Err500 {T} error message.

(** Body of a successful [GET /api/items] *)
Record ItemsBody := {
  items : list Item;
  total : Z;
  hasMore : bool;
  page : int_or_NaN;
  limit : Z;
}.

(** Lines written to the console by [GET /api/items] *)
Inductive log_line :=
  | LogCacheHit (searchTerm : string)
  | LogComputing (searchTerm : string)
  | LogItems (pageNum limitNum : int_or_NaN) (total : Z) (hasMore : bool) (items : Z)
  | LogError (where_ : string).

Record OrderBody := {
  order_success : bool;
  order_message : string;
}.

Record SelectionBody := {
  sel_success : bool;
  sel_selected : option json;
  sel_selectedCount : Z;
}.

Record StateBody := {
  st_selected : list number;
  st_selectedCount : Z;
  st_hasCustomOrder : bool;
}.

(** The literals of server.js *)
Definition universe_size : Z := 1000000.
Definition search_cap : Z := 1000.

(** ** The handlers of server.js *)

Section server.
(** [Number::toString] prints the shortest digits that read back as the
    same double.  For an integer of magnitude at most 2^53 these are its
    decimal digits; for every other Number (fractions, larger values, where
    the digits are shortened and padded or in exponent notation) the
    printing is taken as given. *)
Variable toString_other : number → string.

(** [`${n}`] for a Number *)
Definition number_toString (n : number) : string :=
  if bool_decide (Qden n = 1%positive ∧ Z.abs (Qnum n) ≤ 2 ^ 53)
  then decimal (Qnum n)
  else toString_other n.

(** [`${v}`] for a JSON value; [None] when the conversion throws a
    TypeError.  An object is printed by the inherited [toString] as
    "[object Object]", unless it has an own key [toString]: a JSON value is
    never callable, so the conversion then finds no method that yields a
    primitive and throws.  An array is printed by [join], which prints
    [null] elements as empty and every other element with this conversion. *)
Fixpoint json_toString (v : json) : option string :=
  match v with
  | JNull => Some "null"
  | JBool true => Some "true"
  | JBool false => Some "false"
  | JNum n => Some (number_toString n)
  | JStr s => Some s
  | JArr l =>
      join_comma <$>
        (fix elements (l : list json) : option (list string) :=
           match l with
           | [] => Some []
           | e :: l' =>
               match (match e with JNull => Some "" | _ => json_toString e end) with
               | Some s => cons s <$> elements l'
               | None => None
               end
           end) l
  | JObj fields =>
      if bool_decide ("toString" ∈ fields.*1) then None else Some "[object Object]"
  end.

(** [generateItem] (server.js, lines 28-32) *)
Definition generateItem (st : State) (id : number) : Item :=
  {| item_id := id;
     item_text := "Item " +:+ number_toString id;
     item_selected := JSSet.has (selectedItems st) id |}.

(** The search scan (lines 80-86):
    [for (let id = 1; id <= 1000000; id++) {
       if (`${id}`.includes(searchTerm)) matchIds.push(id);
       if (matchIds.length >= 1000) break; }]
    [fuel] bounds the number of iterations; [compute_search] gives it the
    1000000 the loop can need. *)
Fixpoint scan_loop (fuel : nat) (searchTerm : string) (id : Z)
    (matchIds : list number) : list number :=
  match fuel with
  | O => matchIds
  | S fuel' =>
      if bool_decide (id ≤ universe_size) then
        let matchIds :=
          if includes (decimal id) searchTerm
          then matchIds ++ [Qc_of_Z id] else matchIds in
        if bool_decide (search_cap ≤ Z.of_nat (length matchIds)) then matchIds
        else scan_loop fuel' searchTerm (id + 1) matchIds
      else matchIds
  end.

Definition compute_search (searchTerm : string) : list number :=
  scan_loop (Z.to_nat universe_size) searchTerm 1 [].

(** [Array.from({ length: 1000000 }, (_, i) => i + 1)] *)
Definition universe : list number :=
  Array_from (Z.to_nat universe_size) 0 (λ i, Qc_of_Z (i + 1)).

(** The branch of [GET /api/items] that fixes [itemIds] and [total]
    (lines 69-101), given the normalized search term. *)
Definition resolve_ids (st : State) (searchTerm : string)
    : list number * Z * State * list log_line :=
  if bool_decide (searchTerm ≠ "") then
    match searchCache st !! searchTerm with
    | Some cache =>
        (cache_ids cache, cache_total cache, st, [LogCacheHit searchTerm])
    | None =>
        let matchIds := compute_search searchTerm in
        let total := Z.of_nat (length matchIds) in
        (matchIds, total,
         {| customOrder := customOrder st;
            selectedItems := selectedItems st;
            searchCache :=
              <[searchTerm := {| cache_ids := matchIds; cache_total := total |}]>
                (searchCache st) |},
         [LogComputing searchTerm])
    end
  else
    match customOrder st with
    | Some order =>
        if bool_decide (0 < Z.of_nat (length order))
        then (order, Z.of_nat (length order), st, [])
        else (universe, universe_size, st, [])
    | None => (universe, universe_size, st, [])
    end.

(** [endIndex < total]; a comparison with NaN is false. *)
Definition lt_total (endIndex : int_or_NaN) (total : Z) : bool :=
  match endIndex with
  | Some e => bool_decide (e < total)
  | None => false
  end.

(** [Math.max(1, parseInt(page))], with the default [page = 1] *)
Definition pageNum_of (q : Query) : int_or_NaN :=
  Math_max 1 (parseInt (from_option qval_toString "1" (q_page q))).

(** [Math.max(1, Math.min(100, parseInt(limit)))], with the default [limit = 20] *)
Definition limitNum_of (q : Query) : int_or_NaN :=
  Math_max 1 (Math_min 100 (parseInt (from_option qval_toString "20" (q_limit q)))).

(** Lines 103-122 of [GET /api/items]: the slice of [itemIds], the items
    and the response body, with the line logged before it is sent. *)
Definition paginate (st : State) (pageNum limitNum : int_or_NaN)
    (itemIds : list number) (total : Z) : ItemsBody * log_line :=
  let startIndex := pageNum ≫= λ p, limitNum ≫= λ l, Some ((p - 1) * l) in
  let endIndex := startIndex ≫= λ s, limitNum ≫= λ l, Some (s + l) in
  let resultIds := slice itemIds startIndex endIndex in
  let items := map (generateItem st) resultIds in
  let hasMore := lt_total endIndex total in
  ({| items := items; total := total; hasMore := hasMore;
      page := pageNum; limit := Z.of_nat (length items) |},
   LogItems pageNum limitNum total hasMore (Z.of_nat (length resultIds))).

(** [GET /api/items] (lines 62-130).  An absent parameter takes its
    default ([1], [20], ['']); a [search] that is not a string has no
    [toLowerCase], and the TypeError is answered by the catch block. *)
Definition handle_items (st : State) (q : Query)
    : response ItemsBody * State * list log_line :=
  let pageNum := pageNum_of q in
  let limitNum := limitNum_of q in
  match default (QStr "") (q_search q) with
  | QStr search =>
      let searchTerm := trim (toLowerCase search) in
      let '(itemIds, total, st', logs) := resolve_ids st searchTerm in
      let '(body, line) := paginate st' pageNum limitNum itemIds total in
      (Ok200 body, st', logs ++ [line])
  | _ =>
      (Err500 "Internal server error" (Some "search.toLowerCase is not a function"),
       st, [LogError "Error in /api/items:"])
  end.

(** Why [POST /api/update-order] answers 400 *)
Inductive order_error :=
  | NotAnArray
  | InvalidID (id : json)
  | DuplicateID (id : number).

(** The message of the 400 answer; [None] when building it throws. *)
Definition order_error_message (e : order_error) : option string :=
  match e with
  | NotAnArray => Some "Order must be an array"
  | InvalidID id => String.append "Invalid ID: " <$> json_toString id
  | DuplicateID id => Some ("Duplicate ID: " +:+ number_toString id)
  end.

(** The validation loop (lines 141-150): the first offending element ends
    it. [None] means the loop ran to its end. *)
Fixpoint validate_order (order : list json) (idSet : JSSet.t (A:=number))
    : option order_error :=
  match order with
  | [] => None
  | id :: rest =>
      match id with
      | JNum n =>
          if bool_decide (n < Qc_of_Z 1 ∨ Qc_of_Z universe_size < n)%Qc
          then Some (InvalidID id)
          else if JSSet.has idSet n then Some (DuplicateID n)
          else validate_order rest (JSSet.add idSet n)
      | _ => Some (InvalidID id)
      end
  end.

(** The Numbers of an array; after validation that is the whole array. *)
Definition numbers_of (order : list json) : list number :=
  omap (λ v, match v with JNum n => Some n | _ => None end) order.

(** The check of [POST /api/update-order] before anything is written *)
Definition check_order (body : json) : order_error + list json :=
  match get_field "order" body with
  | Some (JArr order) =>
      match validate_order order JSSet.empty with
      | Some e => inl e
      | None => inr order
      end
  | _ => inl NotAnArray
  end.

(** [POST /api/update-order] (lines 132-163).  The whole handler runs inside
    [try]: when building the message of a 400 answer throws, the [catch]
    block answers 500 "Failed to update order"; nothing has been written to
    the state by then. *)
Definition handle_update_order (st : State) (body : json)
    : response OrderBody * State :=
  match check_order body with
  | inl e =>
      match order_error_message e with
      | Some message => (Err400 message, st)
      | None => (Err500 "Failed to update order" None, st)
      end
  | inr order =>
      (Ok200 {| order_success := true;
                order_message :=
                  "Order updated with " +:+ decimal (Z.of_nat (length order))
                  +:+ " items" |},
       {| customOrder := Some (numbers_of order);
          selectedItems := selectedItems st;
          searchCache := ∅ |})
  end.

(** [POST /api/update-selection] (lines 166-189) *)
Definition handle_update_selection (st : State) (body : json)
    : response SelectionBody * State :=
  match get_field "id" body with
  | Some (JNum id) =>
      if bool_decide (id < Qc_of_Z 1 ∨ Qc_of_Z universe_size < id)%Qc
      then (Err400 "Invalid item ID", st)
      else
        let selected := get_field "selected" body in
        let st' :=
          {| customOrder := customOrder st;
             selectedItems :=
               if truthy selected then JSSet.add (selectedItems st) id
               else JSSet.delete (selectedItems st) id;
             searchCache := searchCache st |} in
        (Ok200 {| sel_success := true; sel_selected := selected;
                  sel_selectedCount := JSSet.size (selectedItems st') |}, st')
  | _ => (Err400 "Invalid item ID", st)
  end.

(** [GET /api/state] (lines 192-198) *)
Definition handle_state (st : State) : StateBody :=
  {| st_selected := JSSet.to_array (selectedItems st);
     st_selectedCount := JSSet.size (selectedItems st);
     st_hasCustomOrder := bool_decide (is_Some (customOrder st)) |}.

(** The requests that touch the state, and the states the server can be in. *)
Inductive request :=
  | GetItems (q : Query)
  | PostUpdateOrder (body : json)
  | PostUpdateSelection (body : json)
  | GetState.

Definition step (st : State) (r : request) : State :=
  match r with
  | GetItems q => (handle_items st q).1.2
  | PostUpdateOrder body => (handle_update_order st body).2
  | PostUpdateSelection body => (handle_update_selection st body).2
  | GetState => st
  end.

Definition reachable (st : State) : Prop :=
  ∃ rs : list request, st = foldl step initial_state rs.

(** What every entry of the search cache is: the scan of its key. *)
Definition cache_consistent (st : State) : Prop :=
  ∀ term cache, searchCache st !! term = Some cache →
    term ≠ "" ∧ cache_ids cache = compute_search term ∧
    cache_total cache = Z.of_nat (length (cache_ids cache)).
End server.

(** ** Reference notions the properties are stated with *)

(** The ids of the universe whose decimal numeral contains the term, ascending *)
Definition matching_ids (searchTerm : string) : list Z :=
  filter (λ id, includes (decimal id) searchTerm = true) (seqZ 1 universe_size).

(** The ids of a list of items *)
Definition ids_of (l : list Item) : list number := item_id <$> l.

(** What the validation loop of [POST /api/update-order] lets through: a
    Number between 1 and 1000000 *)
Definition accepted_id (v : json) : Prop :=
  ∃ n : number, v = JNum n ∧ (Qc_of_Z 1 ≤ n)%Qc ∧ (n ≤ Qc_of_Z universe_size)%Qc.

(** ** [Number::toString]

    The printing function of ECMAScript, used to run the handlers on
    concrete requests: the numeral of the fewest digits that reads back as
    the same double (of the nearest such, if there are several), written in
    positional notation from 10^-6 up to 10^21 and in exponent notation
    outside.  The general theorems hold for every printing function. *)

(** [a / b] over [2 ^ e], as a fraction of integers *)
Definition scale2 (a b e : Z) : Z * Z :=
  if bool_decide (0 ≤ e) then (a, b * 2 ^ e) else (a * 2 ^ (- e), b).

(** [a / b] over [10 ^ p], as a fraction of integers *)
Definition scale10 (a b p : Z) : Z * Z :=
  if bool_decide (0 ≤ p) then (a, b * 10 ^ p) else (a * 10 ^ (- p), b).

(** The integer nearest to [num / den], ties to the even one *)
Definition round_half_even (num den : Z) : Z :=
  let m := num `div` den in
  let r := num `mod` den in
  if bool_decide (den < 2 * r) then m + 1
  else if bool_decide (2 * r = den) then (if Z.even m then m else m + 1)
  else m.

(** The [e] with [2 ^ e ≤ a / b < 2 ^ (e + 1)] *)
Definition floor_log2 (a b : Z) : Z :=
  let t := Z.log2 a - Z.log2 b in
  let '(num, den) := scale2 a b t in
  if bool_decide (den ≤ num) then t else t - 1.

(** The double nearest to [a / b > 0], as [(m, e)] of value [m * 2 ^ e] with
    [2 ^ 52 ≤ m < 2 ^ 53], or [e = -1074] for a subnormal; [None] is
    Infinity. *)
Definition to_double (a b : Z) : option (Z * Z) :=
  let e := Z.max (floor_log2 a b - 52) (-1074) in
  let '(num, den) := scale2 a b e in
  let m := round_half_even num den in
  let '(m, e) := if bool_decide (m = 2 ^ 53) then (2 ^ 52, e + 1) else (m, e) in
  if bool_decide (971 < e) then None else Some (m, e).

(** The [n] with [10 ^ (n - 1) ≤ a / b < 10 ^ n], searched upwards *)
Fixpoint decimal_exponent (fuel : nat) (a b n : Z) : Z :=
  match fuel with
  | O => n
  | S fuel' =>
      let '(num, den) := scale10 a b n in
      if bool_decide (num < den) then n else decimal_exponent fuel' a b (n + 1)
  end.

(** The integer [s] nearest to [a / b / 10 ^ p] for which [s * 10 ^ p] reads
    back as the double [d], if there is one *)
Definition digits_at (d : Z * Z) (a b p : Z) : option Z :=
  let '(num, den) := scale10 a b p in
  let lo := num `div` den in
  let hi := lo + 1 in
  let ok (s : Z) :=
    let '(x, y) := scale10 s 1 (- p) in
    bool_decide (0 < s) && bool_decide (to_double x y = Some d) in
  let dlo := num - lo * den in
  let dhi := hi * den - num in
  match ok lo, ok hi with
  | true, true =>
      if bool_decide (dlo < dhi) then Some lo
      else if bool_decide (dhi < dlo) then Some hi
      else Some (if Z.even lo then lo else hi)
  | true, false => Some lo
  | false, true => Some hi
  | false, false => None
  end.

(** The fewest digits first: [k = 1, 2, ...] *)
Fixpoint shortest (fuel : nat) (d : Z * Z) (a b n k : Z) : Z * Z :=
  match fuel with
  | O => (round_half_even (scale10 a b (n - k)).1 (scale10 a b (n - k)).2, n - k)
  | S fuel' =>
      match digits_at d a b (n - k) with
      | Some s => (s, n - k)
      | None => shortest fuel' d a b n (k + 1)
      end
  end.

Fixpoint strip_zeros (fuel : nat) (s p : Z) : Z * Z :=
  match fuel with
  | O => (s, p)
  | S fuel' =>
      if bool_decide (s `mod` 10 = 0) then strip_zeros fuel' (s `div` 10) (p + 1)
      else (s, p)
  end.

Fixpoint zeros (n : nat) : string :=
  match n with O => "" | S n' => String "0" (zeros n') end.

Fixpoint string_take (n : nat) (s : string) : string :=
  match n, s with
  | S n', String c s' => String c (string_take n' s')
  | _, _ => ""
  end.

Fixpoint string_drop (n : nat) (s : string) : string :=
  match n, s with
  | S n', String _ s' => string_drop n' s'
  | _, _ => s
  end.

(** Steps 6 to 10 of Number::toString: the numeral of [s * 10 ^ (n - k)],
    [s] having the [k] digits [digits] *)
Definition format_digits (digits : string) (n : Z) : string :=
  let k := Z.of_nat (String.length digits) in
  if bool_decide (k ≤ n ≤ 21) then digits +:+ zeros (Z.to_nat (n - k))
  else if bool_decide (0 < n ≤ 21) then
    string_take (Z.to_nat n) digits +:+ "." +:+ string_drop (Z.to_nat n) digits
  else if bool_decide (-6 < n ≤ 0) then "0." +:+ zeros (Z.to_nat (- n)) +:+ digits
  else
    let exponent := (if bool_decide (0 ≤ n - 1) then "+" else "-") +:+ decimal (Z.abs (n - 1)) in
    if bool_decide (k = 1) then digits +:+ "e" +:+ exponent
    else string_take 1 digits +:+ "." +:+ string_drop 1 digits +:+ "e" +:+ exponent.

(** [Number::toString] in radix 10.  The argument is first read as the
    double nearest to it, which changes nothing for the value of a parsed
    JSON number. *)
Definition Number_toString (x : number) : string :=
  let a := Z.abs (Qnum x) in
  let b := Z.pos (Qden x) in
  if bool_decide (a = 0) then "0"
  else
    match to_double a b with
    | None => (if bool_decide (Qnum x < 0) then "-" else "") +:+ "Infinity"
    | Some (m, e) =>
        if bool_decide (m = 0) then "0"
        else
          let '(va, vb) := scale2 m 1 (- e) in
          let n := decimal_exponent 640 va vb (-324) in
          let '(s, p) := shortest 17 (m, e) va vb n 1 in
          let '(s, p) := strip_zeros 400 s p in
          let digits := decimal s in
          (if bool_decide (Qnum x < 0) then "-" else "") +:+
          format_digits digits (Z.of_nat (String.length digits) + p)
    end.

(** The request [GET /api/items?page=..&limit=..&search=..] *)
Definition listItems_query (page limit search : string) : Query :=
  {| q_page := Some (QStr page); q_limit := Some (QStr limit);
     q_search := Some (QStr search) |}.

(** The request body [{ "order": [...] }] with integer ids *)
Definition setOrder_body (order : list Z) : json :=
  JObj [("order", JArr ((λ z, JNum (Qc_of_Z z)) <$> order))].

(** Two states that differ at most in [customOrder] *)
Definition same_but_customOrder (st1 st2 : State) : Prop :=
  selectedItems st1 = selectedItems st2 ∧ searchCache st1 = searchCache st2.

(** The request body [{ "id": id, "selected": selected }] *)
Definition setSelected_body (id : Z) (selected : bool) : json :=
  JObj [("id", JNum (Qc_of_Z id)); ("selected", JBool selected)].

(** A Number between 1 and 1000000 *)
Definition in_range (n : number) : Prop :=
  (Qc_of_Z 1 ≤ n)%Qc ∧ (n ≤ Qc_of_Z universe_size)%Qc.

(** ASCII digits, and strings made of them *)
Definition is_digit (c : ascii) : bool :=
  let n := nat_of_ascii c in bool_decide (48 ≤ n ≤ 57)%nat.

Fixpoint all_digits (s : string) : bool :=
  match s with
  | EmptyString => true
  | String c s' => is_digit c && all_digits s'
  end.

(** ** The earlier server (part_000): the items array and the text filter *)

(** [Array.from({ length: 1000000 }, (_, i) =>
      ({ id: i + 1, text: `Item ${i + 1}`, selected: false }))] (lines 17-21) *)
Definition old_items : list Item :=
  Array_from (Z.to_nat universe_size) 0
    (λ i, {| item_id := Qc_of_Z (i + 1);
             item_text := "Item " +:+ decimal (i + 1);
             item_selected := false |}).

(** The search step of the earlier [GET /api/items] (lines 85-89):
    [if (search) filteredItems = filteredItems.filter((item) =>
       item.text.toLowerCase().includes(search.toLowerCase()))] *)
Definition old_search_filter (search : string) (filteredItems : list Item) : list Item :=
  if bool_decide (search ≠ "")
  then filter (λ item, includes (toLowerCase (item_text item)) (toLowerCase search) = true)
         filteredItems
  else filteredItems.

(** The data-model invariants of the state: a custom order holds distinct
    Numbers of the range, and so does the selection. *)
Definition order_valid (st : State) : Prop :=
  ∀ order, customOrder st = Some order → Forall in_range order ∧ NoDup order.

Definition selection_valid (st : State) : Prop :=
  Forall in_range (selectedItems st) ∧ NoDup (selectedItems st).

(** A state reached by two requests: the order [5, 3, 9] is set, then id 3
    is selected. *)
Definition sample_requests : list request :=
  [PostUpdateOrder (setOrder_body [5; 3; 9]); PostUpdateSelection (setSelected_body 3 true)].

(** * Properties *)

(** ** Lists *)

Lemma list_filter_iff_elem {A} (P Q : A → Prop)
    `{!∀ x, Decision (P x), !∀ x, Decision (Q x)} (l : list A) :
  (∀ x, x ∈ l → P x ↔ Q x) → filter P l = filter Q l.
Proof.
  induction l as [|x l IH]; intros HPQ; [done|].
  rewrite !filter_cons. rewrite IH by (intros y ?; apply HPQ; by right).
  destruct (decide (P x)) as [HP|HP], (decide (Q x)) as [HQ|HQ]; try done;
    exfalso; apply (HPQ x) in HP || apply (HPQ x) in HQ; done || by left.
Qed.

(** ** JavaScript sets *)

Section jsset_facts.
Context {A : Type} `{EqDecision A}.
Implicit Types (s : JSSet.t (A:=A)) (x y : A) (l : list A).

Lemma has_spec s x : JSSet.has s x = true ↔ x ∈ s.
Proof. unfold JSSet.has. by rewrite bool_decide_eq_true. Qed.

Lemma has_false s x : JSSet.has s x = false ↔ x ∉ s.
Proof. unfold JSSet.has. by rewrite bool_decide_eq_false. Qed.

Lemma elem_of_add s x y : y ∈ JSSet.add s x ↔ y = x ∨ y ∈ s.
Proof.
  unfold JSSet.add. destruct (JSSet.has s x) eqn:E.
  - apply has_spec in E. split; [by right | intros [->|?]; done].
  - rewrite elem_of_app, list_elem_of_singleton. tauto.
Qed.

Lemma elem_of_delete s x y : y ∈ JSSet.delete s x ↔ y ≠ x ∧ y ∈ s.
Proof. unfold JSSet.delete. by rewrite list_elem_of_filter. Qed.

Lemma NoDup_add s x : NoDup s → NoDup (JSSet.add s x).
Proof.
  intros Hs. unfold JSSet.add. destruct (JSSet.has s x) eqn:E; [done|].
  apply has_false in E. apply NoDup_app. split_and!; [done| |apply NoDup_singleton].
  intros y Hy ->%list_elem_of_singleton. done.
Qed.

Lemma elem_of_foldl_add l s y : y ∈ foldl JSSet.add s l ↔ y ∈ l ∨ y ∈ s.
Proof.
  revert s. induction l as [|x l IH]; intros s; simpl.
  - rewrite elem_of_nil. tauto.
  - rewrite IH, elem_of_add, elem_of_cons. tauto.
Qed.

Lemma elem_of_of_list l y : y ∈ JSSet.of_list l ↔ y ∈ l.
Proof.
  unfold JSSet.of_list. rewrite elem_of_foldl_add.
  unfold JSSet.empty. rewrite elem_of_nil. tauto.
Qed.

Lemma NoDup_of_list l : NoDup (JSSet.of_list l).
Proof.
  unfold JSSet.of_list. generalize (NoDup_nil_2 (A:=A)). unfold JSSet.empty.
  generalize (@nil A). induction l as [|x l IH]; intros s Hs; simpl; [done|].
  apply IH. by apply NoDup_add.
Qed.
End jsset_facts.

(** ** The Order Resolver *)

Section order_resolver_facts.
Context {A : Type} `{EqDecision A}.
Implicit Types (ids order : list A) (x y : A).

Lemma remaining_pass_spec ids (remainingIds : JSSet.t (A:=A)) orderedIds :
  remaining_pass ids remainingIds orderedIds
  = orderedIds ++ filter (.∈ remainingIds) ids.
Proof.
  unfold remaining_pass. revert orderedIds.
  induction ids as [|x ids IH]; intros acc; simpl.
  - by rewrite app_nil_r.
  - rewrite IH. destruct (JSSet.has remainingIds x) eqn:E.
    + apply has_spec in E. rewrite filter_cons_True by done.
      by rewrite <-app_assoc.
    + apply has_false in E. by rewrite filter_cons_False by done.
Qed.

Lemma customOrder_pass_spec order (remainingIds : JSSet.t (A:=A)) orderedIds :
  NoDup order →
  customOrder_pass order (orderedIds, remainingIds)
  = (orderedIds ++ filter (.∈ remainingIds) order,
     filter (.∉ order) remainingIds).
Proof.
  unfold customOrder_pass. revert orderedIds remainingIds.
  induction order as [|x order IH]; intros acc R Hnd; simpl.
  - rewrite app_nil_r. f_equal. symmetry. induction R as [|y R IHR]; [done|].
    rewrite filter_cons_True by apply not_elem_of_nil. by f_equal.
  - apply NoDup_cons in Hnd as [Hx Hnd].
    destruct (JSSet.has R x) eqn:E.
    + apply has_spec in E. rewrite IH by done.
      rewrite filter_cons_True by done. rewrite <-app_assoc. simpl.
      f_equal; [f_equal; f_equal|].
      * apply list_filter_iff_elem. intros y Hy. rewrite elem_of_delete.
        split; [tauto|]. intros ?; split; [|done]. by intros ->.
      * unfold JSSet.delete. rewrite list_filter_filter.
        apply list_filter_iff. intros y. rewrite not_elem_of_cons. tauto.
    + apply has_false in E. rewrite IH by done.
      rewrite filter_cons_False by done. f_equal.
      apply list_filter_iff_elem. intros y Hy. rewrite not_elem_of_cons.
      split; [|tauto]. intros ?; split; [|done]. by intros ->.
Qed.

Lemma applyCustomOrder_Some order ids :
  NoDup order →
  applyCustomOrder (Some order) ids
  = filter (.∈ ids) order ++ filter (.∉ order) ids.
Proof.
  intros Hnd. unfold applyCustomOrder.
  rewrite customOrder_pass_spec by done. rewrite remaining_pass_spec. simpl.
  f_equal.
  - apply list_filter_iff. intros y. apply elem_of_of_list.
  - apply list_filter_iff_elem. intros y Hy.
    rewrite list_elem_of_filter, elem_of_of_list. tauto.
Qed.

Lemma applyCustomOrder_Permutation order ids :
  NoDup ids → NoDup order → applyCustomOrder (Some order) ids ≡ₚ ids.
Proof.
  intros Hids Hord. rewrite applyCustomOrder_Some by done.
  etrans; [|apply (filter_app_complement (.∈ order) ids)].
  apply Permutation_app; [|done].
  apply NoDup_Permutation; [by apply NoDup_filter..|].
  intros y. rewrite !list_elem_of_filter. tauto.
Qed.

(** *** [indexOf] and the comparator *)

Lemma indexOf_absent order x : x ∉ order → indexOf order x = -1.
Proof.
  induction order as [|y order IH]; [done|].
  intros [Hne Hx]%not_elem_of_cons. simpl.
  rewrite decide_False by done. rewrite IH by done. done.
Qed.

Lemma indexOf_present order x :
  x ∈ order → 0 ≤ indexOf order x < Z.of_nat (length order).
Proof.
  induction order as [|y order IH]; [by intros ?%elem_of_nil|].
  intros Hx. simpl. destruct (decide (y = x)) as [->|Hne]; [lia|].
  apply elem_of_cons in Hx as [->|Hx]; [done|]. specialize (IH Hx).
  rewrite decide_False by lia. lia.
Qed.

Lemma indexOf_app_l o1 o2 x : x ∈ o1 → indexOf (o1 ++ o2) x = indexOf o1 x.
Proof.
  induction o1 as [|y o1 IH]; [by intros ?%elem_of_nil|].
  intros Hx. simpl. destruct (decide (y = x)); [done|].
  apply elem_of_cons in Hx as [->|Hx]; [done|]. by rewrite IH.
Qed.

Lemma indexOf_app_r o1 o2 x :
  x ∉ o1 → x ∈ o2 → indexOf (o1 ++ o2) x = Z.of_nat (length o1) + indexOf o2 x.
Proof.
  intros Hx1 Hx2. induction o1 as [|y o1 IH]; [simpl; lia|].
  apply not_elem_of_cons in Hx1 as [Hne Hx1]. simpl.
  rewrite decide_False by done. rewrite IH by done.
  pose proof (indexOf_present o2 x Hx2). rewrite decide_False by lia. lia.
Qed.

Lemma order_compare_absent_l order x y :
  x ∉ order → y ∈ order → order_compare order x y = 1.
Proof.
  intros Hx Hy. unfold order_compare. rewrite (indexOf_absent _ x) by done.
  pose proof (indexOf_present order y Hy).
  rewrite decide_False by lia. by rewrite decide_True.
Qed.

Lemma order_compare_absent order x y :
  x ∉ order → y ∉ order → order_compare order x y = 0.
Proof.
  intros Hx Hy. unfold order_compare. rewrite !indexOf_absent by done.
  by rewrite decide_True.
Qed.

Lemma order_compare_absent_r order x y :
  x ∈ order → y ∉ order → order_compare order x y = -1.
Proof.
  intros Hx Hy. unfold order_compare. rewrite (indexOf_absent _ y) by done.
  pose proof (indexOf_present order x Hx).
  rewrite !decide_False by lia. by rewrite decide_True.
Qed.

Lemma order_compare_present order x y :
  x ∈ order → y ∈ order →
  order_compare order x y = indexOf order x - indexOf order y.
Proof.
  intros Hx Hy. unfold order_compare.
  pose proof (indexOf_present order x Hx).
  pose proof (indexOf_present order y Hy).
  by rewrite !decide_False by lia.
Qed.

(** The comparator never puts two ids each after the other. *)
Lemma order_compare_consistent order x y :
  0 < order_compare order x y → order_compare order y x ≤ 0.
Proof.
  destruct (decide (x ∈ order)) as [Hx|Hx], (decide (y ∈ order)) as [Hy|Hy].
  - rewrite !order_compare_present by done. lia.
  - rewrite order_compare_absent_r by done. lia.
  - rewrite (order_compare_absent_r order y x) by done. lia.
  - rewrite !order_compare_absent by done. lia.
Qed.

(** *** The stable sort *)

Lemma sort_insert_app {B} (cmp : B → B → Z) (b : B) (before after : list B) :
  Forall (λ c, 0 < cmp b c) before →
  Forall (λ c, cmp b c ≤ 0) after →
  sort_insert cmp b (before ++ after) = before ++ b :: after.
Proof.
  intros Hb Ha. induction Hb as [|c before Hc Hb IH]; simpl.
  - destruct Ha as [|c after Hc Ha]; simpl; [done|]. by rewrite decide_True.
  - rewrite decide_False by lia. by rewrite IH.
Qed.

Lemma sort_insert_Permutation {B} (cmp : B → B → Z) (b : B) (l : list B) :
  sort_insert cmp b l ≡ₚ b :: l.
Proof.
  induction l as [|c l IH]; [done|]. cbn [sort_insert].
  destruct (decide (cmp b c ≤ 0)); [done|]. rewrite IH. apply Permutation_swap.
Qed.

(** The model of [sort] rearranges and, for a comparator that never puts two
    elements each after the other, sorts: what ECMAScript asks of every
    implementation. *)
Lemma js_sort_Permutation {B} (cmp : B → B → Z) (l : list B) : js_sort cmp l ≡ₚ l.
Proof.
  induction l as [|b l IH]; [done|]. cbn [js_sort].
  rewrite sort_insert_Permutation. by constructor.
Qed.

Lemma sort_insert_Sorted {B} (cmp : B → B → Z) (b : B) (l : list B) :
  (∀ c d, 0 < cmp c d → cmp d c ≤ 0) →
  Sorted (λ c d, cmp c d ≤ 0) l → Sorted (λ c d, cmp c d ≤ 0) (sort_insert cmp b l).
Proof.
  intros Hcmp. induction l as [|c l IH]; intros Hl; cbn [sort_insert].
  - repeat constructor.
  - destruct (decide (cmp b c ≤ 0)); [constructor; [done|by constructor]|].
    apply Sorted_inv in Hl as [Hl Hhd]. constructor; [by apply IH|].
    destruct l as [|d l]; cbn [sort_insert].
    + constructor. apply Hcmp. lia.
    + apply HdRel_inv in Hhd. destruct (decide (cmp b d ≤ 0)); constructor; [|done].
      apply Hcmp. lia.
Qed.

Lemma js_sort_Sorted {B} (cmp : B → B → Z) (l : list B) :
  (∀ c d, 0 < cmp c d → cmp d c ≤ 0) → Sorted (λ c d, cmp c d ≤ 0) (js_sort cmp l).
Proof.
  intros Hcmp. induction l as [|b l IH]; [constructor|].
  cbn [js_sort]. by apply sort_insert_Sorted.
Qed.

Lemma js_sort_fmap {B} (id_of : B → A) (cmp : A → A → Z) (l : list B) :
  id_of <$> js_sort (λ a b, cmp (id_of a) (id_of b)) l = js_sort cmp (id_of <$> l).
Proof.
  induction l as [|b l IH]; [done|]. rewrite fmap_cons. cbn [js_sort].
  rewrite <-IH.
  generalize (js_sort (λ a b, cmp (id_of a) (id_of b)) l). intros k.
  induction k as [|c k IHk]; [done|]. rewrite fmap_cons. cbn [sort_insert].
  destruct (decide (cmp (id_of b) (id_of c) ≤ 0)); [done|].
  rewrite fmap_cons. by rewrite IHk.
Qed.

Lemma js_sort_order_compare order ids :
  NoDup ids → NoDup order →
  js_sort (order_compare order) ids
  = filter (.∈ ids) order ++ filter (.∉ order) ids.
Proof.
  intros Hids Hord. induction Hids as [|x l Hx Hl IH]; simpl.
  - rewrite app_nil_r. symmetry. induction order as [|y o IHo]; [done|].
    rewrite filter_cons_False by apply not_elem_of_nil.
    apply IHo. by apply NoDup_cons in Hord as [_ ?].
  - rewrite IH. destruct (decide (x ∈ order)) as [Hin|Hout].
    + apply list_elem_of_split in Hin as (o1 & o2 & ->).
      apply NoDup_app in Hord as (Ho1 & Hdisj & [Hxo2 Ho2]%NoDup_cons).
      assert (x ∉ o1) as Hxo1 by (intros ?; eapply Hdisj; [done|by left]).
      assert (indexOf (o1 ++ x :: o2) x = Z.of_nat (length o1)) as Hix.
      { rewrite indexOf_app_r by (done || by left). simpl.
        rewrite decide_True by done. lia. }
      rewrite !filter_app, !filter_cons.
      rewrite decide_False by done. rewrite decide_True by by left.
      rewrite (decide_False (P:=x ∉ _)) by (intros Hn; apply Hn; set_solver).
      rewrite <-!app_assoc. rewrite sort_insert_app.
      * simpl. f_equal; [|f_equal; f_equal].
        -- apply list_filter_iff_elem. intros y Hy. rewrite elem_of_cons.
           split; [tauto|]. intros [->|?]; done.
        -- apply list_filter_iff_elem. intros y Hy. rewrite elem_of_cons.
           split; [tauto|]. intros [->|?]; done.
      * apply Forall_forall. intros y [_ Hy]%list_elem_of_filter.
        rewrite order_compare_present by set_solver.
        rewrite Hix. rewrite indexOf_app_l by done.
        pose proof (indexOf_present o1 y Hy). lia.
      * apply Forall_app. split; apply Forall_forall.
        -- intros y [_ Hy]%list_elem_of_filter.
           rewrite order_compare_present by set_solver. rewrite Hix.
           assert (y ∉ o1) by (intros ?; eapply Hdisj; [done|by right]).
           rewrite (indexOf_app_r _ _ y) by (done || by right).
           simpl. rewrite decide_False by (by intros ->).
           pose proof (indexOf_present o2 y Hy).
           rewrite decide_False by lia. lia.
        -- intros y [Hy _]%list_elem_of_filter.
           rewrite order_compare_absent_r by (done || set_solver). lia.
    + rewrite filter_cons_True by done.
      rewrite sort_insert_app.
      * f_equal. apply list_filter_iff_elem. intros y Hy. rewrite elem_of_cons.
        split; [tauto|]. intros [->|?]; done.
      * apply Forall_forall. intros y [_ Hy]%list_elem_of_filter.
        rewrite order_compare_absent_l by done. lia.
      * apply Forall_forall. intros y [Hy _]%list_elem_of_filter.
        rewrite order_compare_absent by done. lia.
Qed.

(** C5: for distinct candidate ids and a custom order of distinct ids,
    [applyCustomOrder] returns a permutation of the candidates: first the
    ids of the custom order that occur among the candidates, in the custom
    order's order, then the other candidates in their original relative
    order; with no custom order the candidates come back unchanged. *)
Theorem C5_applyCustomOrder_permutation (candidateIds order : list A) :
  NoDup candidateIds → NoDup order →
  applyCustomOrder (Some order) candidateIds ≡ₚ candidateIds ∧
  applyCustomOrder (Some order) candidateIds
  = filter (.∈ candidateIds) order ++ filter (.∉ order) candidateIds ∧
  applyCustomOrder None candidateIds = candidateIds.
Proof.
  intros Hids Hord. split_and!; [|by apply applyCustomOrder_Some|done].
  by apply applyCustomOrder_Permutation.
Qed.

(** C10: on items with distinct ids and a custom order of distinct ids, the
    comparator sort of the earlier server and the two-pass merge of the
    current one yield the same sequence of ids (and both leave the items
    alone when there is no custom order). *)
Theorem C10_merge_equals_comparator_sort {B} (id_of : B → A)
    (order : list A) (filteredItems : list B) :
  NoDup (id_of <$> filteredItems) → NoDup order →
  id_of <$> sort_by_order id_of (Some order) filteredItems
  = applyCustomOrder (Some order) (id_of <$> filteredItems) ∧
  id_of <$> sort_by_order id_of None filteredItems
  = applyCustomOrder None (id_of <$> filteredItems).
Proof.
  intros Hids Hord. split; [|done]. unfold sort_by_order.
  rewrite (js_sort_fmap id_of (order_compare order)).
  rewrite js_sort_order_compare by done. by rewrite applyCustomOrder_Some.
Qed.
End order_resolver_facts.

(** ** Strings *)

Lemma startsWith_spec s t : startsWith s t = true ↔ ∃ post, s = t +:+ post.
Proof.
  revert s. induction t as [|b t IH]; intros s; simpl.
  - destruct s; split; eauto.
  - destruct s as [|a s]; simpl.
    + split; [done|]. by intros [post ?].
    + rewrite andb_true_iff, bool_decide_eq_true, IH. split.
      * intros [-> [post ->]]. by exists post.
      * intros [post [= -> ->]]. eauto.
Qed.

(** [includes] is the substring test. *)
Lemma includes_spec s t :
  includes s t = true ↔ ∃ pre post, s = pre +:+ t +:+ post.
Proof.
  induction s as [|a s IH]; cbn [includes]; rewrite orb_true_iff.
  - rewrite startsWith_spec. split.
    + intros [[post ->]|?]; [|done]. by exists "", post.
    + intros (pre & post & Heq). left. exists post.
      destruct pre; [done|discriminate].
  - rewrite startsWith_spec, IH. split.
    + intros [[post ->]|(pre & post & ->)]; [by exists "", post|].
      by exists (String a pre), post.
    + intros (pre & post & Heq). destruct pre as [|c pre]; simpl in Heq.
      * left. by exists post.
      * right. injection Heq as -> ->. by exists pre, post.
Qed.

(** ** Sorted lists *)

Lemma StronglySorted_sublist {A} (R : relation A) (l1 l2 : list A) :
  l1 `sublist_of` l2 → StronglySorted R l2 → StronglySorted R l1.
Proof.
  induction 1 as [|x l1 l2 Hsub IH|x l1 l2 Hsub IH]; [done| |].
  - intros [Hs Hall]%StronglySorted_inv. constructor; [by apply IH|].
    apply Forall_forall. intros y Hy. rewrite Forall_forall in Hall.
    apply Hall. by eapply elem_of_sublist.
  - intros [Hs _]%StronglySorted_inv. by apply IH.
Qed.

Lemma StronglySorted_seqZ (m n : Z) : StronglySorted Z.lt (seqZ m n).
Proof.
  destruct (decide (n ≤ 0)) as [?|Hn]; [rewrite seqZ_nil by done; constructor|].
  rewrite <-(Z2Nat.id n) by lia. generalize (Z.to_nat n). clear. intros k.
  revert m. induction k as [|k IH]; intros m; [constructor|].
  rewrite seqZ_cons by lia. constructor.
  - replace (Z.pred (Z.of_nat (S k))) with (Z.of_nat k) by lia. apply IH.
  - apply Forall_forall. intros y Hy. apply list_elem_of_lookup in Hy as [i Hi].
    apply lookup_seqZ in Hi. lia.
Qed.

(** ** The search scan *)

Lemma universe_size_eq : universe_size = 1000000.
Proof. reflexivity. Qed.

Lemma search_cap_eq : search_cap = 1000.
Proof. reflexivity. Qed.

Lemma scan_loop_spec (fuel : nat) (searchTerm : string) (id : Z) (matchIds : list number) :
  universe_size - id + 1 ≤ Z.of_nat fuel →
  (length matchIds < Z.to_nat search_cap)%nat →
  scan_loop fuel searchTerm id matchIds
  = take (Z.to_nat search_cap)
      (matchIds ++
       (Qc_of_Z <$> filter (λ i, includes (decimal i) searchTerm = true)
                      (seqZ id (universe_size - id + 1)))).
Proof.
  pose proof search_cap_eq as Hcap.
  revert id matchIds. induction fuel as [|fuel IH]; intros id acc Hfuel Hlen.
  - rewrite seqZ_nil by lia. cbn [scan_loop]. rewrite filter_nil, fmap_nil, app_nil_r.
    by rewrite take_ge by lia.
  - cbn [scan_loop]. case_bool_decide as Hid.
    + rewrite (seqZ_cons id) by lia. rewrite filter_cons.
      replace (Z.pred (universe_size - id + 1)) with (universe_size - (id + 1) + 1) by lia.
      replace (Z.succ id) with (id + 1) by lia.
      destruct (includes (decimal id) searchTerm) eqn:Hinc.
      * rewrite decide_True by done. rewrite fmap_cons.
        assert (∀ r, acc ++ Qc_of_Z id :: r = (acc ++ [Qc_of_Z id]) ++ r) as Hmid
          by (intros r; by rewrite <-app_assoc).
        rewrite (Hmid (_ <$> _)). clear Hmid.
        case_bool_decide as Hfull.
        -- rewrite take_app_length'; [done|]. rewrite length_app in *. simpl in *. lia.
        -- apply IH; [lia|]. rewrite length_app in *. simpl in *. lia.
      * rewrite decide_False by done.
        rewrite bool_decide_eq_false_2 by lia. apply IH; [lia|done].
    + rewrite seqZ_nil by lia. rewrite filter_nil, fmap_nil, app_nil_r.
      by rewrite take_ge by lia.
Qed.

(** The scan returns the first 1000 matching ids, ascending. *)
Lemma compute_search_spec (searchTerm : string) :
  compute_search searchTerm
  = Qc_of_Z <$> take (Z.to_nat search_cap) (matching_ids searchTerm).
Proof.
  unfold compute_search, matching_ids. rewrite scan_loop_spec.
  - rewrite app_nil_l, fmap_take.
    by replace (universe_size - 1 + 1) with universe_size by (rewrite universe_size_eq; lia).
  - rewrite universe_size_eq. lia.
  - rewrite search_cap_eq. simpl. lia.
Qed.

Lemma elem_of_matching_ids (searchTerm : string) (id : Z) :
  id ∈ matching_ids searchTerm ↔
  1 ≤ id ≤ universe_size ∧ ∃ pre post, decimal id = pre +:+ searchTerm +:+ post.
Proof.
  unfold matching_ids. rewrite list_elem_of_filter, includes_spec.
  rewrite list_elem_of_lookup. setoid_rewrite lookup_seqZ. split.
  - intros [? [i [-> ?]]]. split; [lia|done].
  - intros [? ?]. split; [done|]. exists (Z.to_nat (id - 1)). lia.
Qed.

Lemma StronglySorted_matching_ids (searchTerm : string) :
  StronglySorted Z.lt (matching_ids searchTerm).
Proof.
  eapply StronglySorted_sublist; [apply sublist_filter; apply _|].
  apply StronglySorted_seqZ.
Qed.

Lemma StronglySorted_compute_search (searchTerm : string) :
  StronglySorted Qclt (compute_search searchTerm).
Proof.
  rewrite compute_search_spec.
  apply (StronglySorted_fmap _ Z.lt); [intros x y; apply Z2Qc_inj_lt|].
  eapply StronglySorted_sublist; [apply sublist_take|].
  apply StronglySorted_matching_ids.
Qed.

(** ** Validation of a submitted order *)

Lemma in_range_iff (n : number) :
  ¬ (n < Qc_of_Z 1 ∨ Qc_of_Z universe_size < n)%Qc ↔
  (Qc_of_Z 1 ≤ n)%Qc ∧ (n ≤ Qc_of_Z universe_size)%Qc.
Proof. rewrite !Qcle_ngt. tauto. Qed.

Lemma accepted_id_JNum (n : number) :
  accepted_id (JNum n) ↔ ¬ (n < Qc_of_Z 1 ∨ Qc_of_Z universe_size < n)%Qc.
Proof.
  rewrite in_range_iff. unfold accepted_id. split.
  - by intros (m & [= <-] & ?).
  - intros ?. by exists n.
Qed.

Lemma accepted_id_cases (v : json) : accepted_id v ∨ ¬ accepted_id v.
Proof.
  destruct v as [| |n| | |]; try (right; by intros (m & [=] & _)).
  destruct (decide (n < Qc_of_Z 1 ∨ Qc_of_Z universe_size < n)%Qc) as [Hr|Hr].
  - right. rewrite accepted_id_JNum. tauto.
  - left. rewrite accepted_id_JNum. tauto.
Qed.

Lemma validate_order_cons_accepted (n : number) (rest : list json) idSet :
  accepted_id (JNum n) → n ∉ idSet →
  validate_order (JNum n :: rest) idSet = validate_order rest (JSSet.add idSet n).
Proof.
  intros Hacc%accepted_id_JNum Hn. cbn [validate_order].
  rewrite bool_decide_eq_false_2 by done.
  apply has_false in Hn. by rewrite Hn.
Qed.

(** The loop runs to its end exactly on arrays of distinct accepted ids
    that are all new to [idSet]. *)
Lemma validate_order_None (order : list json) idSet :
  validate_order order idSet = None ↔
  Forall accepted_id order ∧ NoDup order ∧ ∀ n, JNum n ∈ order → n ∉ idSet.
Proof.
  revert idSet. induction order as [|v rest IH]; intros idSet.
  - split; [|done]. intros _. split_and!; [constructor|constructor|].
    by intros n ?%elem_of_nil.
  - destruct (accepted_id_cases v) as [Hacc|Hrej].
    + destruct Hacc as (n & -> & Hn).
      assert (accepted_id (JNum n)) as Hacc by (by exists n).
      destruct (decide (n ∈ idSet)) as [Hin|Hout].
      * split.
        -- cbn [validate_order]. apply accepted_id_JNum in Hacc.
           rewrite bool_decide_eq_false_2 by done.
           apply has_spec in Hin. by rewrite Hin.
        -- intros (_ & _ & Hnew). exfalso. by apply (Hnew n); [left|].
      * rewrite validate_order_cons_accepted, IH by done.
        rewrite Forall_cons, NoDup_cons. split.
        -- intros (? & ? & Hnew). split_and!; try done.
           ++ intros Hdup. apply (Hnew n Hdup). apply elem_of_add. by left.
           ++ intros m [[= ->]|Hm]%elem_of_cons; [done|].
              intros ?. apply (Hnew m Hm). apply elem_of_add. by right.
        -- intros ([_ ?] & [Hfresh ?] & Hnew). split_and!; try done.
           intros m Hm [->|?]%elem_of_add; [done|]. by apply (Hnew m); [right|].
    + split.
      * intros Hv. exfalso. destruct v as [| |n| | |]; try discriminate Hv.
        cbn [validate_order] in Hv. case_bool_decide as Hr; [discriminate|].
        by apply Hrej, accepted_id_JNum.
      * by intros ([? _]%Forall_cons & _).
Qed.

(** When the loop stops early it stops at the first element that is not an
    accepted id or repeats an earlier one, and reports that element. *)
Lemma validate_order_Some (order : list json) idSet (e : order_error) :
  validate_order order idSet = Some e →
  ∃ pre v post, order = pre ++ v :: post ∧ validate_order pre idSet = None ∧
    ((¬ accepted_id v ∧ e = InvalidID v) ∨
     (∃ n, v = JNum n ∧ accepted_id v ∧ (n ∈ idSet ∨ v ∈ pre) ∧ e = DuplicateID n)).
Proof.
  revert idSet. induction order as [|v rest IH]; intros idSet He; [done|].
  destruct (accepted_id_cases v) as [Hacc|Hrej].
  - destruct Hacc as (n & -> & Hn).
    assert (accepted_id (JNum n)) as Hacc by (by exists n).
    destruct (decide (n ∈ idSet)) as [Hin|Hout].
    + exists [], (JNum n), rest. split_and!; [done..|]. right. exists n.
      split_and!; [done|done|by left|].
      cbn [validate_order] in He. apply accepted_id_JNum in Hacc.
      rewrite bool_decide_eq_false_2 in He by done.
      apply has_spec in Hin. rewrite Hin in He. by injection He.
    + rewrite validate_order_cons_accepted in He by done.
      apply IH in He as (pre & w & post & -> & Hpre & Hw).
      exists (JNum n :: pre), w, post. split_and!; [done| |].
      * by rewrite validate_order_cons_accepted.
      * destruct Hw as [?|(m & -> & ? & Hdup & ->)]; [by left|]. right.
        exists m. split_and!; [done..| |done].
        destruct Hdup as [[->|?]%elem_of_add|?]; [right; by left|by left|right; by right].
  - exists [], v, rest. split_and!; [done..|]. left. split; [done|].
    destruct v as [| |n| | |]; try (by injection He).
    cbn [validate_order] in He. case_bool_decide as Hr; [by injection He|].
    exfalso. by apply Hrej, accepted_id_JNum.
Qed.

Lemma numbers_of_accepted (order : list json) :
  Forall accepted_id order → JNum <$> numbers_of order = order.
Proof.
  unfold numbers_of. induction 1 as [|v rest (n & -> & _) _ IH]; [done|].
  cbn [omap list_omap]. rewrite fmap_cons. by f_equal.
Qed.

(** ** Arrays: [Array.from] and [slice] *)

Lemma Array_from_succ {T} (f : Z → T) (n : nat) (i : Z) :
  Array_from n i (λ j, f (j + 1)) = f <$> seqZ (i + 1) (Z.of_nat n).
Proof.
  revert i. induction n as [|n IH]; intros i; [done|].
  cbn [Array_from]. rewrite IH. rewrite (seqZ_cons (i + 1)) by lia.
  rewrite fmap_cons.
  replace (Z.succ (i + 1)) with (i + 1 + 1) by lia.
  by replace (Z.pred (Z.of_nat (S n))) with (Z.of_nat n) by lia.
Qed.

(** The universe is the ids 1, 2, ..., 1000000 in ascending order. *)
Lemma universe_eq : universe = Qc_of_Z <$> seqZ 1 universe_size.
Proof.
  unfold universe. rewrite (Array_from_succ Qc_of_Z).
  by rewrite Z2Nat.id by (rewrite universe_size_eq; lia).
Qed.

Lemma length_universe : Z.of_nat (length universe) = universe_size.
Proof.
  rewrite universe_eq, length_fmap, length_seqZ.
  rewrite Z2Nat.id; [done|]. rewrite universe_size_eq. lia.
Qed.

Lemma slice_NaN {T} (l : list T) : slice l None None = [].
Proof.
  unfold slice. cbn [default]. rewrite bool_decide_eq_false_2 by lia.
  replace (Z.min 0 (Z.of_nat (length l))) with 0 by lia. done.
Qed.

Lemma slice_sublist {T} (l : list T) (start end_ : option Z) :
  slice l start end_ `sublist_of` l.
Proof. unfold slice. etrans; [apply sublist_take|apply sublist_drop]. Qed.

(** A slice with [0 ≤ start ≤ end] is [drop start] then [take (end - start)]. *)
Lemma slice_nonneg {T} (l : list T) (s e : Z) :
  0 ≤ s ≤ e →
  slice l (Some s) (Some e) = take (Z.to_nat (e - s)) (drop (Z.to_nat s) l).
Proof.
  intros Hse. unfold slice. cbv beta zeta. cbn [default from_option]. unfold id.
  rewrite !bool_decide_eq_false_2 by lia.
  destruct (decide (s ≤ Z.of_nat (length l))) as [Hs|Hs].
  - replace (Z.min s (Z.of_nat (length l))) with s by lia.
    destruct (decide (e ≤ Z.of_nat (length l))) as [He|He].
    + replace (Z.min e (Z.of_nat (length l))) with e by lia. f_equal. lia.
    + rewrite !take_ge; [done|rewrite length_drop; lia..].
  - rewrite !drop_ge by lia. by rewrite !take_nil.
Qed.

Lemma length_slice_nonneg {T} (l : list T) (s e : Z) :
  0 ≤ s ≤ e →
  Z.of_nat (length (slice l (Some s) (Some e)))
  = Z.max 0 (Z.min (e - s) (Z.of_nat (length l) - s)).
Proof.
  intros Hse. rewrite slice_nonneg by done. rewrite length_take, length_drop. lia.
Qed.

Lemma take_drop_seqZ (m n s l : Z) :
  0 ≤ s → 0 ≤ l →
  take (Z.to_nat l) (drop (Z.to_nat s) (seqZ m n)) = seqZ (m + s) (Z.min l (n - s)).
Proof.
  intros Hs Hl. destruct (decide (n ≤ s)) as [Hn|Hn].
  - rewrite drop_ge by (rewrite length_seqZ; lia). rewrite take_nil.
    by rewrite seqZ_nil by lia.
  - replace n with (s + (n - s)) at 1 by lia. rewrite seqZ_app by lia.
    rewrite drop_app_length' by (rewrite length_seqZ; lia).
    destruct (decide (n - s ≤ l)) as [Hl'|Hl'].
    + rewrite take_ge by (rewrite length_seqZ; lia). f_equal. lia.
    + replace (n - s) with (l + (n - s - l)) at 1 by lia. rewrite seqZ_app by lia.
      rewrite take_app_length' by (rewrite length_seqZ; lia). f_equal. lia.
Qed.

(** ** The handlers *)

(** The universe and the scan are a million steps long: the proofs below go
    through their characterisations and never unfold them. *)
#[local] Opaque universe compute_search.

Section server_facts.
Variable toString_other : number → string.

Lemma handle_update_order_accept (st : State) (body : json) (order : list json) :
  get_field "order" body = Some (JArr order) →
  validate_order order JSSet.empty = None →
  handle_update_order toString_other st body
  = (Ok200 {| order_success := true;
              order_message :=
                "Order updated with " +:+ decimal (Z.of_nat (length order))
                +:+ " items" |},
     {| customOrder := Some (numbers_of order);
        selectedItems := selectedItems st;
        searchCache := ∅ |}).
Proof.
  intros Hbody Hval. unfold handle_update_order, check_order.
  by rewrite Hbody, Hval.
Qed.

Lemma handle_update_order_reject (st : State) (body : json) (order : list json) e :
  get_field "order" body = Some (JArr order) →
  validate_order order JSSet.empty = Some e →
  handle_update_order toString_other st body
  = match order_error_message toString_other e with
    | Some message => (Err400 message, st)
    | None => (Err500 "Failed to update order" None, st)
    end.
Proof.
  intros Hbody Hval. unfold handle_update_order, check_order.
  by rewrite Hbody, Hval.
Qed.

(** Which JSON values cannot be printed: the objects with an own key
    [toString]; a Number, a string, a boolean and [null] always can. *)
Lemma json_toString_JObj (fields : list (string * json)) :
  json_toString toString_other (JObj fields) = None ↔ "toString" ∈ fields.*1.
Proof. cbn [json_toString]. by case_bool_decide. Qed.

Lemma json_toString_JNum (n : number) :
  json_toString toString_other (JNum n) = Some (number_toString toString_other n).
Proof. done. Qed.

(** C2 (as the code has it): [POST /api/update-order] with an array
    succeeds exactly when every element is a Number between 1 and 1000000
    (an integer or not) and none repeats; otherwise it stops at the first
    element that is not such a Number or repeats an earlier one and leaves
    the state as it is: it answers 400 with a message that names that
    element, or, when that element cannot be printed (an object with an own
    key [toString], or an array that holds one), 500 "Failed to update
    order". *)
Theorem C2_update_order_validation (st : State) (body : json) (order : list json) :
  get_field "order" body = Some (JArr order) →
  (Forall accepted_id order ∧ NoDup order ∧
   ∃ b, handle_update_order toString_other st body
        = (Ok200 b, {| customOrder := Some (numbers_of order);
                       selectedItems := selectedItems st;
                       searchCache := ∅ |}))
  ∨
  (∃ pre v post, order = pre ++ v :: post ∧ Forall accepted_id pre ∧ NoDup pre ∧
     ((¬ accepted_id v ∧
       match json_toString toString_other v with
       | Some printed =>
           handle_update_order toString_other st body
           = (Err400 ("Invalid ID: " +:+ printed), st)
       | None =>
           handle_update_order toString_other st body
           = (Err500 "Failed to update order" None, st)
       end)
      ∨
      (accepted_id v ∧ v ∈ pre ∧
       ∃ printed, json_toString toString_other v = Some printed ∧
                  handle_update_order toString_other st body
                  = (Err400 ("Duplicate ID: " +:+ printed), st)))).
Proof.
  intros Hbody. destruct (validate_order order JSSet.empty) as [e|] eqn:Hval.
  - right. pose proof (handle_update_order_reject st body order e Hbody Hval) as Hres.
    apply validate_order_Some in Hval as (pre & v & post & -> & Hpre & Hv).
    apply validate_order_None in Hpre as (Hacc & Hnd & _).
    exists pre, v, post. split_and!; [done..|].
    destruct Hv as [[Hrej ->]|(n & -> & Hn & Hdup & ->)]; [left|right].
    + split; [done|]. cbn [order_error_message] in Hres.
      by destruct (json_toString toString_other v).
    + split_and!; [done| |].
      * destruct Hdup as [Hin|Hin]; [by apply elem_of_nil in Hin|done].
      * eexists. by split.
  - left. pose proof Hval as (Hacc & Hnd & _)%validate_order_None.
    split_and!; [done..|]. eexists. by apply handle_update_order_accept.
Qed.

(** *** The three branches of [resolve_ids] *)

Lemma resolve_ids_hit (st : State) (searchTerm : string) (cache : CacheEntry) :
  searchTerm ≠ "" → searchCache st !! searchTerm = Some cache →
  resolve_ids st searchTerm
  = (cache_ids cache, cache_total cache, st, [LogCacheHit searchTerm]).
Proof.
  intros Hne Hhit. unfold resolve_ids.
  rewrite bool_decide_eq_true_2 by done. by rewrite Hhit.
Qed.

Lemma resolve_ids_miss (st : State) (searchTerm : string) :
  searchTerm ≠ "" → searchCache st !! searchTerm = None →
  resolve_ids st searchTerm
  = (compute_search searchTerm,
     Z.of_nat (length (compute_search searchTerm)),
     {| customOrder := customOrder st;
        selectedItems := selectedItems st;
        searchCache :=
          <[searchTerm := {| cache_ids := compute_search searchTerm;
                             cache_total :=
                               Z.of_nat (length (compute_search searchTerm)) |}]>
            (searchCache st) |},
     [LogComputing searchTerm]).
Proof.
  intros Hne Hmiss. unfold resolve_ids.
  rewrite bool_decide_eq_true_2 by done. by rewrite Hmiss.
Qed.

Lemma resolve_ids_no_search (st : State) :
  resolve_ids st ""
  = match customOrder st with
    | Some (id :: rest) =>
        (id :: rest, Z.of_nat (length (id :: rest)), st, [])
    | _ => (universe, universe_size, st, [])
    end.
Proof.
  unfold resolve_ids. rewrite bool_decide_eq_false_2 by (by intros []).
  destruct (customOrder st) as [[|id rest]|]; [done| |done].
  by rewrite bool_decide_eq_true_2 by (cbn [length]; lia).
Qed.

(** Whatever the branch, only the search cache can change. *)
Lemma resolve_ids_keeps (st : State) (searchTerm : string) :
  customOrder (resolve_ids st searchTerm).1.2 = customOrder st ∧
  selectedItems (resolve_ids st searchTerm).1.2 = selectedItems st.
Proof.
  unfold resolve_ids. case_bool_decide.
  - by destruct (searchCache st !! searchTerm).
  - destruct (customOrder st) as [order|] eqn:E; [|done]. by case_bool_decide.
Qed.

(** *** The cache holds scans only *)

Lemma cache_consistent_initial : cache_consistent initial_state.
Proof.
  intros term cache Hc. unfold initial_state in Hc. cbn [searchCache] in Hc.
  by rewrite lookup_empty in Hc.
Qed.

Lemma cache_consistent_resolve_ids (st : State) (searchTerm : string) :
  cache_consistent st → cache_consistent (resolve_ids st searchTerm).1.2.
Proof.
  intros Hst. destruct (decide (searchTerm = "")) as [->|Hne].
  - rewrite resolve_ids_no_search. by destruct (customOrder st) as [[|??]|].
  - destruct (searchCache st !! searchTerm) as [cache|] eqn:E.
    + by rewrite (resolve_ids_hit _ _ cache).
    + rewrite resolve_ids_miss by done. intros term cache. cbn [searchCache fst snd].
      rewrite lookup_insert. case_decide as Hterm.
      * intros [= <-]. by subst term.
      * apply Hst.
Qed.

Lemma handle_items_state (st : State) (q : Query) :
  (handle_items toString_other st q).1.2 = st ∨
  ∃ searchTerm, (handle_items toString_other st q).1.2 = (resolve_ids st searchTerm).1.2.
Proof.
  unfold handle_items. destruct (default (QStr "") (q_search q)); [|by left..].
  right. exists (trim (toLowerCase s)).
  destruct (resolve_ids st _) as [[[itemIds tot] st'] logs].
  by destruct (paginate _ _ _ _ _ _).
Qed.

Lemma cache_consistent_step (st : State) (r : request) :
  cache_consistent st → cache_consistent (step toString_other st r).
Proof.
  intros Hst. destruct r as [q|body|body|]; cbn [step]; [| | |done].
  - destruct (handle_items_state st q) as [->|[term ->]]; [done|].
    by apply cache_consistent_resolve_ids.
  - unfold handle_update_order.
    destruct (check_order body) as [e|order]; [by destruct (order_error_message _ e)|].
    intros term cache Hc. cbn [snd searchCache] in Hc. by rewrite lookup_empty in Hc.
  - unfold handle_update_selection.
    destruct (get_field "id" body) as [[| |id| | |]|]; try done.
    by case_bool_decide.
Qed.

(** Every state the server can reach has a consistent cache. *)
Lemma reachable_cache_consistent (st : State) :
  reachable toString_other st → cache_consistent st.
Proof.
  intros [rs ->]. induction rs as [|r rs IH] using rev_ind.
  - apply cache_consistent_initial.
  - rewrite foldl_snoc. by apply cache_consistent_step.
Qed.

(** *** The search path *)

Lemma resolve_ids_search (st : State) (searchTerm : string) :
  searchTerm ≠ "" → cache_consistent st →
  (resolve_ids st searchTerm).1.1
  = (compute_search searchTerm, Z.of_nat (length (compute_search searchTerm))).
Proof.
  intros Hne Hst. destruct (searchCache st !! searchTerm) as [cache|] eqn:E.
  - rewrite (resolve_ids_hit _ _ cache) by done. cbn [fst].
    destruct (Hst _ _ E) as (_ & Hids & ->). by rewrite Hids.
  - by rewrite resolve_ids_miss.
Qed.

(** C4: for a term that is non-empty after trimming and case folding, in
    every state the server can reach the search yields the first 1000
    (or all, if fewer) ids of 1..1000000 whose decimal numeral contains
    the term, in ascending order, and [total] is the number of ids
    returned. *)
Theorem C4_search_first_1000_matches (st : State) (search : string) :
  let searchTerm := trim (toLowerCase search) in
  let matchingIds := (resolve_ids st searchTerm).1.1.1 in
  let total := (resolve_ids st searchTerm).1.1.2 in
  searchTerm ≠ "" → reachable toString_other st →
  (∀ id : Z, id ∈ matching_ids searchTerm ↔
     1 ≤ id ≤ 1000000 ∧ ∃ pre post, decimal id = pre +:+ searchTerm +:+ post) ∧
  StronglySorted Z.lt (matching_ids searchTerm) ∧
  matchingIds = Qc_of_Z <$> take 1000%nat (matching_ids searchTerm) ∧
  Z.of_nat (length matchingIds)
  = Z.min 1000 (Z.of_nat (length (matching_ids searchTerm))) ∧
  StronglySorted Qclt matchingIds ∧
  total = Z.of_nat (length matchingIds).
Proof.
  intros searchTerm matchingIds total Hne Hreach.
  apply reachable_cache_consistent in Hreach.
  pose proof (resolve_ids_search st searchTerm Hne Hreach) as Hres.
  assert (matchingIds = compute_search searchTerm) as -> by (unfold matchingIds; by rewrite Hres).
  assert (total = Z.of_nat (length (compute_search searchTerm))) as ->
    by (unfold total; by rewrite Hres).
  split_and!.
  - intros id. by rewrite elem_of_matching_ids, universe_size_eq.
  - apply StronglySorted_matching_ids.
  - apply compute_search_spec.
  - rewrite compute_search_spec, length_fmap, length_take. rewrite search_cap_eq. lia.
  - apply StronglySorted_compute_search.
  - done.
Qed.


(** *** Pagination and the response *)

Lemma handle_items_string (st : State) (q : Query) (search : string) :
  default (QStr "") (q_search q) = QStr search →
  handle_items toString_other st q
  = let r := resolve_ids st (trim (toLowerCase search)) in
    let pg := paginate toString_other r.1.2 (pageNum_of q) (limitNum_of q)
                r.1.1.1 r.1.1.2 in
    (Ok200 pg.1, r.1.2, r.2 ++ [pg.2]).
Proof.
  intros Hs. unfold handle_items. rewrite Hs. cbv zeta.
  destruct (resolve_ids st _) as [[[itemIds tot] st'] logs]. cbn [fst snd].
  by destruct (paginate _ _ _ _ _ _).
Qed.

Lemma ids_of_generateItem (st : State) (l : list number) :
  ids_of (map (generateItem toString_other st) l) = l.
Proof.
  unfold ids_of. induction l as [|id l IH]; [done|].
  cbn [map]. rewrite fmap_cons. by f_equal.
Qed.

Lemma paginate_selectedItems (st1 st2 : State) pageNum limitNum itemIds tot :
  selectedItems st1 = selectedItems st2 →
  paginate toString_other st1 pageNum limitNum itemIds tot
  = paginate toString_other st2 pageNum limitNum itemIds tot.
Proof. intros Hsel. unfold paginate, generateItem. by rewrite Hsel. Qed.

Lemma pageNum_of_ge_1 (q : Query) (p : Z) : pageNum_of q = Some p → 1 ≤ p.
Proof.
  unfold pageNum_of, Math_max. destruct (parseInt _) as [z|]; [|done].
  intros [= <-]. lia.
Qed.

Lemma limitNum_of_range (q : Query) (l : Z) : limitNum_of q = Some l → 1 ≤ l ≤ 100.
Proof.
  unfold limitNum_of, Math_max, Math_min. destruct (parseInt _) as [z|]; [|done].
  intros [= <-]. lia.
Qed.

(** The items handler has no 400 answer at all. *)
Lemma handle_items_never_400 (st : State) (q : Query) (e : string) :
  (handle_items toString_other st q).1.1 ≠ Err400 e.
Proof.
  unfold handle_items. destruct (default (QStr "") (q_search q)); [|done..].
  destruct (resolve_ids st _) as [[[itemIds tot] st'] logs].
  by destruct (paginate _ _ _ _ _ _).
Qed.

(** With a non-empty term the branch taken never reads the custom order. *)
Lemma resolve_ids_same_search (st1 st2 : State) (searchTerm : string) :
  searchTerm ≠ "" → same_but_customOrder st1 st2 →
  (resolve_ids st1 searchTerm).1.1 = (resolve_ids st2 searchTerm).1.1 ∧
  (resolve_ids st1 searchTerm).2 = (resolve_ids st2 searchTerm).2 ∧
  same_but_customOrder (resolve_ids st1 searchTerm).1.2 (resolve_ids st2 searchTerm).1.2.
Proof.
  intros Hne [Hsel Hcache].
  pose proof (resolve_ids_keeps st1 searchTerm) as [_ Hsel1].
  pose proof (resolve_ids_keeps st2 searchTerm) as [_ Hsel2].
  unfold same_but_customOrder. rewrite Hsel1, Hsel2.
  destruct (searchCache st1 !! searchTerm) as [cache|] eqn:E.
  - rewrite (resolve_ids_hit st1 _ cache), (resolve_ids_hit st2 _ cache);
      [done|done|by rewrite <-Hcache|done..].
  - rewrite (resolve_ids_miss st1), (resolve_ids_miss st2);
      [|done|by rewrite <-Hcache|done..]. cbn [fst snd searchCache].
    by rewrite Hcache.
Qed.

(** C7: for a search term that is non-empty after normalization, two
    states that differ only in the custom order resolve to the same ids and
    total, log the same lines, and end in states that still differ only in
    the custom order; in a reachable state the ids are the first 1000
    matches of the term in ascending numeric order.  Whatever the page and
    the limit, the response body and the line logged are then the same in
    both states and the ids of the items are strictly ascending; so a
    request whose [search] string (ASCII) normalizes to the term gets the
    same response in both states. *)
Theorem C7_search_ignores_custom_order (st1 st2 : State) (searchTerm : string) :
  searchTerm ≠ "" → same_but_customOrder st1 st2 → reachable toString_other st1 →
  ((resolve_ids st1 searchTerm).1.1 = (resolve_ids st2 searchTerm).1.1 ∧
   (resolve_ids st1 searchTerm).2 = (resolve_ids st2 searchTerm).2 ∧
   same_but_customOrder (resolve_ids st1 searchTerm).1.2
                        (resolve_ids st2 searchTerm).1.2 ∧
   (resolve_ids st1 searchTerm).1.1.1
   = Qc_of_Z <$> take 1000%nat (matching_ids searchTerm) ∧
   StronglySorted Qclt (resolve_ids st1 searchTerm).1.1.1) ∧
  (∀ pageNum limitNum : int_or_NaN,
     let r1 := resolve_ids st1 searchTerm in
     let r2 := resolve_ids st2 searchTerm in
     paginate toString_other r1.1.2 pageNum limitNum r1.1.1.1 r1.1.1.2
     = paginate toString_other r2.1.2 pageNum limitNum r2.1.1.1 r2.1.1.2 ∧
     StronglySorted Qclt
       (ids_of (items (paginate toString_other r1.1.2 pageNum limitNum
                         r1.1.1.1 r1.1.1.2).1))) ∧
  ∀ (q : Query) (search : string),
    q_search q = Some (QStr search) → ascii_only search = true →
    trim (toLowerCase search) = searchTerm →
    (handle_items toString_other st1 q).1.1 = (handle_items toString_other st2 q).1.1 ∧
    (handle_items toString_other st1 q).2 = (handle_items toString_other st2 q).2 ∧
    same_but_customOrder (handle_items toString_other st1 q).1.2
                         (handle_items toString_other st2 q).1.2 ∧
    ∃ b, (handle_items toString_other st1 q).1.1 = Ok200 b ∧
         StronglySorted Qclt (ids_of (items b)).
Proof.
  intros Hne Hsame Hreach.
  apply reachable_cache_consistent in Hreach.
  pose proof (resolve_ids_search st1 searchTerm Hne Hreach) as Hids.
  destruct (resolve_ids_same_search st1 st2 searchTerm Hne Hsame) as (Hres & Hlog & Hst).
  assert (∀ pageNum limitNum,
            StronglySorted Qclt
              (ids_of (items (paginate toString_other (resolve_ids st1 searchTerm).1.2
                                pageNum limitNum
                                (resolve_ids st1 searchTerm).1.1.1
                                (resolve_ids st1 searchTerm).1.1.2).1))) as Hsorted.
  { intros pageNum limitNum. unfold paginate. cbn [fst items].
    rewrite ids_of_generateItem. eapply StronglySorted_sublist; [apply slice_sublist|].
    rewrite Hids. cbn [fst]. apply StronglySorted_compute_search. }
  split.
  { split_and!; [done..| |].
    - rewrite Hids. cbn [fst]. apply compute_search_spec.
    - rewrite Hids. cbn [fst]. apply StronglySorted_compute_search. }
  split.
  { intros pageNum limitNum r1 r2. split; [|apply Hsorted]. unfold r1, r2.
    rewrite <-Hres. apply paginate_selectedItems, Hst. }
  intros q search Hq _ Hterm.
  assert (default (QStr "") (q_search q) = QStr search) as Hs by (by rewrite Hq).
  rewrite !(handle_items_string _ q search) by done. cbv zeta. cbn [fst snd].
  rewrite Hterm, <-Hres, <-Hlog.
  rewrite (paginate_selectedItems (resolve_ids st2 searchTerm).1.2
             (resolve_ids st1 searchTerm).1.2) by (symmetry; apply Hst).
  split_and!; [done..|].
  eexists. split; [done|]. apply Hsorted.
Qed.

(** C8: the [limit] field of a response is the number of items in it.
    With a numeric page [p] and limit [l] (after clamping) over [n] ids
    that number is [min l (n - (p - 1) * l)], or 0 if that is negative: the
    clamped limit on a full page, less on the last partial page, 0
    beyond it.  This holds of the pagination step for every id sequence,
    and of the response to a request whose [search] string is ASCII, with
    [n] the number of ids its normalized term resolves to. *)
Theorem C8_limit_field_is_items_length (st : State) (q : Query) (b : ItemsBody) :
  (handle_items toString_other st q).1.1 = Ok200 b →
  limit b = Z.of_nat (length (items b)) ∧
  (∀ (st0 : State) (itemIds : list number) (tot p l : Z),
     1 ≤ p → 1 ≤ l →
     let b0 := (paginate toString_other st0 (Some p) (Some l) itemIds tot).1 in
     limit b0 = Z.of_nat (length (items b0)) ∧
     limit b0 = Z.max 0 (Z.min l (Z.of_nat (length itemIds) - (p - 1) * l))) ∧
  ∀ search p l,
    default (QStr "") (q_search q) = QStr search → ascii_only search = true →
    pageNum_of q = Some p → limitNum_of q = Some l →
    let n := Z.of_nat (length (resolve_ids st (trim (toLowerCase search))).1.1.1) in
    limit b = Z.max 0 (Z.min l (n - (p - 1) * l)).
Proof.
  intros Hb. destruct (default (QStr "") (q_search q)) as [search| |] eqn:Hs;
    [|unfold handle_items in Hb; by rewrite Hs in Hb..].
  rewrite (handle_items_string _ q search) in Hb by done.
  cbv zeta in Hb. cbn [fst snd] in Hb. injection Hb as <-.
  split; [done|]. split.
  - intros st0 itemIds tot p l Hp Hl b0. split; [done|]. unfold b0, paginate.
    cbn [fst limit mbind option_bind]. rewrite length_map.
    rewrite length_slice_nonneg by nia.
    by replace ((p - 1) * l + l - (p - 1) * l) with l by lia.
  - intros search' p l [= <-] _ Hp Hl n.
    unfold paginate. rewrite Hp, Hl. cbn [fst limit mbind option_bind].
    rewrite length_map.
    apply pageNum_of_ge_1 in Hp. apply limitNum_of_range in Hl.
    rewrite length_slice_nonneg by nia. fold n.
    replace ((p - 1) * l + l - (p - 1) * l) with l by lia. done.
Qed.

(** *** Listing without a search term *)

Lemma paginate_NaN (st : State) pageNum limitNum itemIds tot :
  pageNum = None ∨ limitNum = None →
  paginate toString_other st pageNum limitNum itemIds tot
  = ({| items := []; total := tot; hasMore := false; page := pageNum; limit := 0 |},
     LogItems pageNum limitNum tot false 0).
Proof.
  intros Hnan. unfold paginate.
  assert ((pageNum ≫= λ p, limitNum ≫= λ l, Some ((p - 1) * l)) = None) as ->
    by (destruct Hnan as [-> | ->]; [done|by destruct pageNum]).
  cbn [mbind option_bind]. by rewrite slice_NaN.
Qed.


(** C6 (what the code does on the failing input): with [page=abc], or with
    [limit=abc], [parseInt] gives NaN, [Math.max] and [Math.min] keep it,
    and the answer is a 200 with no items, [hasMore = false] and
    [limit = 0]; the page in the first case is NaN, not a number at least 1,
    and the effective limit in the second is NaN, not a number in 1..100. *)
Theorem C6_non_numeric_page_or_limit_gives_NaN (st : State) :
  let q1 := {| q_page := Some (QStr "abc"); q_limit := None; q_search := None |} in
  let q2 := {| q_page := None; q_limit := Some (QStr "abc"); q_search := None |} in
  pageNum_of q1 = None ∧ limitNum_of q2 = None ∧
  (∃ tot, (handle_items toString_other st q1).1.1
          = Ok200 {| items := []; total := tot; hasMore := false;
                     page := None; limit := 0 |}) ∧
  (∃ tot, (handle_items toString_other st q2).1.1
          = Ok200 {| items := []; total := tot; hasMore := false;
                     page := Some 1; limit := 0 |}).
Proof.
  intros q1 q2. split_and!; [done|done| |].
  - rewrite (handle_items_string _ q1 "") by done. cbv zeta. cbn [fst].
    rewrite paginate_NaN by (by left). by eexists.
  - rewrite (handle_items_string _ q2 "") by done. cbv zeta. cbn [fst].
    rewrite paginate_NaN by (by right). by eexists.
Qed.

(** A page of the natural order: the ids (p - 1) * l + 1, ... in ascending
    order, l of them or as many as remain below 1000000. *)
Lemma paginate_universe (st : State) (p l : Z) :
  1 ≤ p → 1 ≤ l →
  let b := (paginate toString_other st (Some p) (Some l) universe universe_size).1 in
  items b
  = generateItem toString_other st
      <$> (Qc_of_Z <$> seqZ ((p - 1) * l + 1) (Z.min l (1000000 - (p - 1) * l))) ∧
  total b = 1000000 ∧ hasMore b = bool_decide (p * l < 1000000) ∧ page b = Some p.
Proof.
  intros Hp Hl b. unfold b, paginate.
  cbn [fst items total hasMore page mbind option_bind lt_total].
  rewrite slice_nonneg by nia.
  replace ((p - 1) * l + l - (p - 1) * l) with l by lia.
  rewrite universe_eq, <-fmap_drop, <-fmap_take, take_drop_seqZ by nia.
  rewrite universe_size_eq. split_and!; [|done| |done].
  - change (@map number Item) with (@fmap list _ number Item).
    do 3 f_equal; lia.
  - apply bool_decide_ext. lia.
Qed.

(** C9: [update-order] with the empty array succeeds and stores the empty
    order; [GET /api/state] then reports [hasCustomOrder = true], while a
    listing without a search term is served from the universe
    1, 2, ..., 1000000 with [total = 1000000] and leaves the state as it
    is: page p with limit l holds the items of the ids (p - 1) * l + 1,
    (p - 1) * l + 2, ..., l of them or as many as remain up to 1000000,
    [hasMore] says whether p * l < 1000000, [limit] is the number of items
    and [page] echoes p (for p up to 2^53). *)
Theorem C9_empty_order_is_present_but_inert (st : State) :
  let st' := {| customOrder := Some []; selectedItems := selectedItems st;
                searchCache := ∅ |} in
  (∃ b, handle_update_order toString_other st (setOrder_body []) = (Ok200 b, st')) ∧
  st_hasCustomOrder (handle_state st') = true ∧
  universe = Qc_of_Z <$> seqZ 1 1000000 ∧
  resolve_ids st' "" = (universe, 1000000, st', []) ∧
  (∀ q search,
     default (QStr "") (q_search q) = QStr search → trim (toLowerCase search) = "" →
     ∃ b, (handle_items toString_other st' q).1.1 = Ok200 b ∧
          (handle_items toString_other st' q).1.2 = st' ∧
          total b = 1000000 ∧ limit b = Z.of_nat (length (items b)) ∧
          (∀ p l, pageNum_of q = Some p → limitNum_of q = Some l →
                  items b
                  = generateItem toString_other st'
                      <$> (Qc_of_Z <$> seqZ ((p - 1) * l + 1)
                                         (Z.min l (1000000 - (p - 1) * l))) ∧
                  hasMore b = bool_decide (p * l < 1000000) ∧
                  (p ≤ 2 ^ 53 → page b = Some p))) ∧
  (∃ b, (handle_items toString_other st' (listItems_query "1" "5" "")).1.1 = Ok200 b ∧
        ids_of (items b) = Qc_of_Z <$> [1; 2; 3; 4; 5] ∧
        total b = 1000000 ∧ hasMore b = true).
Proof.
  intros st'.
  assert (∀ q search,
            default (QStr "") (q_search q) = QStr search →
            trim (toLowerCase search) = "" →
            handle_items toString_other st' q
            = (Ok200 (paginate toString_other st' (pageNum_of q) (limitNum_of q)
                        universe universe_size).1,
               st',
               [(paginate toString_other st' (pageNum_of q) (limitNum_of q)
                   universe universe_size).2])) as Hlist.
  { intros q search Hs Hterm. rewrite (handle_items_string _ q search) by done.
    rewrite Hterm. by rewrite resolve_ids_no_search. }
  split_and!.
  - eexists. by rewrite (handle_update_order_accept st _ []).
  - done.
  - apply universe_eq.
  - by rewrite resolve_ids_no_search.
  - intros q search Hs Hterm. rewrite (Hlist q search) by done. cbn [fst snd].
    eexists. split; [done|]. split; [done|]. split; [done|]. split; [done|].
    intros p l Hp Hl. rewrite Hp, Hl.
    apply pageNum_of_ge_1 in Hp. apply limitNum_of_range in Hl.
    destruct (paginate_universe st' p l) as (Hitems & _ & Hmore & Hpage); [lia..|].
    by rewrite Hitems, Hmore, Hpage.
  - rewrite (Hlist _ "") by done. cbn [fst snd].
    eexists. split; [done|].
    change (pageNum_of (listItems_query "1" "5" "")) with (Some 1).
    change (limitNum_of (listItems_query "1" "5" "")) with (Some 5).
    destruct (paginate_universe st' 1 5) as (Hitems & Htot & Hmore & _); [lia..|].
    rewrite Hitems, Htot, Hmore. split_and!; [|done..].
    etrans; [apply (ids_of_generateItem st')|]. reflexivity.
Qed.
End server_facts.

(** ** The claims on concrete requests *)


(** C2, as stated, fails: the array [1.5] is accepted, though 1.5 is not an
    integer. *)
Lemma C2_counterexample_fraction_accepted :
  ¬ is_integer (Q2Qc (3 # 2)) ∧
  handle_update_order Number_toString initial_state
    (JObj [("order", JArr [JNum (Q2Qc (3 # 2))])])
  = (Ok200 {| order_success := true; order_message := "Order updated with 1 items" |},
     {| customOrder := Some [Q2Qc (3 # 2)]; selectedItems := []; searchCache := ∅ |}).
Proof.
  split; [|vm_compute; reflexivity].
  intros [z Hz]. apply (f_equal (λ n : Qc, Qden n)) in Hz. discriminate Hz.
Qed.

Lemma C5_witness :
  NoDup [1; 2; 3; 4; 5; 6; 9] ∧ NoDup [5; 3; 9; 77] ∧
  (applyCustomOrder (Some [5; 3; 9; 77]) [1; 2; 3; 4; 5; 6; 9] ≡ₚ [1; 2; 3; 4; 5; 6; 9] ∧
   applyCustomOrder (Some [5; 3; 9; 77]) [1; 2; 3; 4; 5; 6; 9]
   = filter (.∈ [1; 2; 3; 4; 5; 6; 9]) [5; 3; 9; 77]
     ++ filter (.∉ [5; 3; 9; 77]) [1; 2; 3; 4; 5; 6; 9] ∧
   applyCustomOrder None [1; 2; 3; 4; 5; 6; 9] = [1; 2; 3; 4; 5; 6; 9]).
Proof.
  assert (NoDup [1; 2; 3; 4; 5; 6; 9]) as Hids
    by (apply (bool_decide_unpack _); vm_compute; exact I).
  assert (NoDup [5; 3; 9; 77]) as Hord
    by (apply (bool_decide_unpack _); vm_compute; exact I).
  split; [exact Hids|]. split; [exact Hord|].
  exact (C5_applyCustomOrder_permutation [1; 2; 3; 4; 5; 6; 9] [5; 3; 9; 77] Hids Hord).
Defined.

Lemma C10_witness :
  let filteredItems :=
    [ {| item_id := Qc_of_Z 1; item_text := "Item 1"; item_selected := false |};
      {| item_id := Qc_of_Z 2; item_text := "Item 2"; item_selected := false |};
      {| item_id := Qc_of_Z 3; item_text := "Item 3"; item_selected := false |};
      {| item_id := Qc_of_Z 4; item_text := "Item 4"; item_selected := false |} ] in
  let order := [Qc_of_Z 3; Qc_of_Z 77; Qc_of_Z 1] in
  NoDup (item_id <$> filteredItems) ∧ NoDup order ∧
  (item_id <$> sort_by_order item_id (Some order) filteredItems
   = applyCustomOrder (Some order) (item_id <$> filteredItems) ∧
   item_id <$> sort_by_order item_id None filteredItems
   = applyCustomOrder None (item_id <$> filteredItems)).
Proof.
  intros filteredItems order.
  assert (NoDup (item_id <$> filteredItems)) as Hids
    by (apply (bool_decide_unpack _); vm_compute; exact I).
  assert (NoDup order) as Hord
    by (apply (bool_decide_unpack _); vm_compute; exact I).
  split; [exact Hids|]. split; [exact Hord|].
  exact (C10_merge_equals_comparator_sort item_id order filteredItems Hids Hord).
Defined.

Lemma C2_witness :
  let order := [JNum (Qc_of_Z 5); JObj [("toString", JNum (Qc_of_Z 1))]; JNum (Qc_of_Z 5)] in
  let body := JObj [("order", JArr order)] in
  let st := initial_state in
  get_field "order" body = Some (JArr order) ∧
  ((Forall accepted_id order ∧ NoDup order ∧
    ∃ b, handle_update_order Number_toString st body
         = (Ok200 b, {| customOrder := Some (numbers_of order);
                        selectedItems := selectedItems st;
                        searchCache := ∅ |}))
   ∨
   (∃ pre v post, order = pre ++ v :: post ∧ Forall accepted_id pre ∧ NoDup pre ∧
      ((¬ accepted_id v ∧
        match json_toString Number_toString v with
        | Some printed =>
            handle_update_order Number_toString st body
            = (Err400 ("Invalid ID: " +:+ printed), st)
        | None =>
            handle_update_order Number_toString st body
            = (Err500 "Failed to update order" None, st)
        end)
       ∨
       (accepted_id v ∧ v ∈ pre ∧
        ∃ printed, json_toString Number_toString v = Some printed ∧
                   handle_update_order Number_toString st body
                   = (Err400 ("Duplicate ID: " +:+ printed), st))))).
Proof.
  intros order body st. split; [reflexivity|].
  exact (C2_update_order_validation Number_toString st body order eq_refl).
Defined.


Lemma C4_witness :
  let st := initial_state in
  let searchTerm := trim (toLowerCase " 99 ") in
  let matchingIds := (resolve_ids st searchTerm).1.1.1 in
  let total := (resolve_ids st searchTerm).1.1.2 in
  searchTerm ≠ "" ∧ reachable Number_toString st ∧
  ((∀ id : Z, id ∈ matching_ids searchTerm ↔
      1 ≤ id ≤ 1000000 ∧ ∃ pre post, decimal id = pre +:+ searchTerm +:+ post) ∧
   StronglySorted Z.lt (matching_ids searchTerm) ∧
   matchingIds = Qc_of_Z <$> take 1000%nat (matching_ids searchTerm) ∧
   Z.of_nat (length matchingIds)
   = Z.min 1000 (Z.of_nat (length (matching_ids searchTerm))) ∧
   StronglySorted Qclt matchingIds ∧
   total = Z.of_nat (length matchingIds)).
Proof.
  intros st searchTerm matchingIds total.
  assert (searchTerm ≠ "") as Hne by (vm_compute; discriminate).
  assert (reachable Number_toString st) as Hreach by (exists []; reflexivity).
  split; [exact Hne|]. split; [exact Hreach|].
  exact (C4_search_first_1000_matches Number_toString st " 99 " Hne Hreach).
Defined.

Lemma C7_witness :
  let st1 := initial_state in
  let st2 := {| customOrder := Some [Qc_of_Z 9; Qc_of_Z 99]; selectedItems := [];
                searchCache := ∅ |} in
  let searchTerm := "99" in
  searchTerm ≠ "" ∧ same_but_customOrder st1 st2 ∧ reachable Number_toString st1 ∧
  (((resolve_ids st1 searchTerm).1.1 = (resolve_ids st2 searchTerm).1.1 ∧
    (resolve_ids st1 searchTerm).2 = (resolve_ids st2 searchTerm).2 ∧
    same_but_customOrder (resolve_ids st1 searchTerm).1.2
                         (resolve_ids st2 searchTerm).1.2 ∧
    (resolve_ids st1 searchTerm).1.1.1
    = Qc_of_Z <$> take 1000%nat (matching_ids searchTerm) ∧
    StronglySorted Qclt (resolve_ids st1 searchTerm).1.1.1) ∧
   (∀ pageNum limitNum : int_or_NaN,
      let r1 := resolve_ids st1 searchTerm in
      let r2 := resolve_ids st2 searchTerm in
      paginate Number_toString r1.1.2 pageNum limitNum r1.1.1.1 r1.1.1.2
      = paginate Number_toString r2.1.2 pageNum limitNum r2.1.1.1 r2.1.1.2 ∧
      StronglySorted Qclt
        (ids_of (items (paginate Number_toString r1.1.2 pageNum limitNum
                          r1.1.1.1 r1.1.1.2).1))) ∧
   ∀ (q : Query) (search : string),
     q_search q = Some (QStr search) → ascii_only search = true →
     trim (toLowerCase search) = searchTerm →
     (handle_items Number_toString st1 q).1.1 = (handle_items Number_toString st2 q).1.1 ∧
     (handle_items Number_toString st1 q).2 = (handle_items Number_toString st2 q).2 ∧
     same_but_customOrder (handle_items Number_toString st1 q).1.2
                          (handle_items Number_toString st2 q).1.2 ∧
     ∃ b, (handle_items Number_toString st1 q).1.1 = Ok200 b ∧
          StronglySorted Qclt (ids_of (items b))).
Proof.
  intros st1 st2 searchTerm.
  assert (searchTerm ≠ "") as Hne by discriminate.
  assert (same_but_customOrder st1 st2) as Hsame by (split; reflexivity).
  assert (reachable Number_toString st1) as Hreach by (exists []; reflexivity).
  split; [exact Hne|]. split; [exact Hsame|]. split; [exact Hreach|].
  exact (C7_search_ignores_custom_order Number_toString st1 st2 searchTerm
           Hne Hsame Hreach).
Defined.

Lemma C8_witness :
  let st := {| customOrder := Some [Qc_of_Z 5; Qc_of_Z 3; Qc_of_Z 9];
               selectedItems := [Qc_of_Z 3]; searchCache := ∅ |} in
  let q := listItems_query "1" "5" "" in
  let b := {| items := [ {| item_id := Qc_of_Z 5; item_text := "Item 5"; item_selected := false |};
                         {| item_id := Qc_of_Z 3; item_text := "Item 3"; item_selected := true |};
                         {| item_id := Qc_of_Z 9; item_text := "Item 9"; item_selected := false |} ];
              total := 3; hasMore := false; page := Some 1; limit := 3 |} in
  (handle_items Number_toString st q).1.1 = Ok200 b ∧
  (limit b = Z.of_nat (length (items b)) ∧
   (∀ (st0 : State) (itemIds : list number) (tot p l : Z),
      1 ≤ p → 1 ≤ l →
      let b0 := (paginate Number_toString st0 (Some p) (Some l) itemIds tot).1 in
      limit b0 = Z.of_nat (length (items b0)) ∧
      limit b0 = Z.max 0 (Z.min l (Z.of_nat (length itemIds) - (p - 1) * l))) ∧
   ∀ search p l,
     default (QStr "") (q_search q) = QStr search → ascii_only search = true →
     pageNum_of q = Some p → limitNum_of q = Some l →
     let n := Z.of_nat (length (resolve_ids st (trim (toLowerCase search))).1.1.1) in
     limit b = Z.max 0 (Z.min l (n - (p - 1) * l))).
Proof.
  intros st q b.
  assert ((handle_items Number_toString st q).1.1 = Ok200 b) as Hb
    by (vm_compute; reflexivity).
  split; [exact Hb|].
  exact (C8_limit_field_is_items_length Number_toString st q b Hb).
Defined.

(** ** The built-ins on sample inputs *)

Example parseInt_samples :
  parseInt "  -12px" = Some (-12) ∧ parseInt "0x1F" = Some 31 ∧
  parseInt "+7" = Some 7 ∧ parseInt "1e3" = Some 1 ∧
  parseInt "" = None ∧ parseInt "abc" = None.
Proof. by vm_compute. Qed.

Example normalize_samples :
  trim (toLowerCase "  AbC 9 ") = "abc 9" ∧ trim (toLowerCase "   ") = "" ∧
  includes "12345" "34" = true ∧ includes "12345" "35" = false.
Proof. by vm_compute. Qed.

Example slice_samples :
  slice [1; 2; 3; 4; 5; 6] (Some 2) (Some 4) = [3; 4] ∧
  slice [1; 2; 3] (Some 0) (Some 5) = [1; 2; 3] ∧
  slice [1; 2; 3] (Some 5) (Some 10) = [] ∧
  slice [1; 2; 3] (Some (-2)) (Some 3) = [2; 3].
Proof. by vm_compute. Qed.

Example applyCustomOrder_sample :
  applyCustomOrder (Some [5; 3; 9; 77]) [1; 2; 3; 4; 5; 6; 9] = [5; 3; 9; 1; 2; 4; 6] ∧
  sort_by_order id (Some [5; 3; 9; 77]) [1; 2; 3; 4; 5; 6; 9] = [5; 3; 9; 1; 2; 4; 6].
Proof. by vm_compute. Qed.

Example Number_toString_samples :
  Number_toString (Q2Qc (3 # 2)) = "1.5" ∧ Number_toString (Q2Qc (7 # 8)) = "0.875" ∧
  number_toString Number_toString (Qc_of_Z 42) = "42" ∧
  Number_toString (Qc_of_Z 42) = "42" ∧
  Number_toString (Qc_of_Z (2 ^ 53)) = "9007199254740992" ∧
  Number_toString (Qc_of_Z (2 ^ 64)) = "18446744073709552000" ∧
  Number_toString (Qc_of_Z (10 ^ 21)) = "1e+21" ∧
  Number_toString (Q2Qc (1 # 10000000)) = "1e-7" ∧
  Number_toString (Q2Qc (3602879701896397 # 36028797018963968)) = "0.1" ∧
  Number_toString (- Qc_of_Z 5)%Qc = "-5".
Proof. by vm_compute. Qed.

Example update_order_samples :
  let answer body := (handle_update_order Number_toString initial_state body).1 in
  answer (JObj [("order", JArr [JObj [("toString", JNum (Qc_of_Z 1))]])])
  = Err500 "Failed to update order" None ∧
  answer (JObj [("order", JArr [JArr [JObj [("toString", JNull)]]])])
  = Err500 "Failed to update order" None ∧
  answer (JObj [("order", JArr [JObj [("id", JNum (Qc_of_Z 1))]])])
  = Err400 "Invalid ID: [object Object]" ∧
  answer (JObj [("order", JArr [JArr [JNum (Qc_of_Z 1); JNull; JArr [JStr "a"; JBool true]]])])
  = Err400 "Invalid ID: 1,,a,true" ∧
  answer (JObj [("order", JArr [JNum (Qc_of_Z (2 ^ 64))])])
  = Err400 "Invalid ID: 18446744073709552000" ∧
  answer (JObj [("order", JArr [JNum (Qc_of_Z 7); JNum (Qc_of_Z 7)])])
  = Err400 "Duplicate ID: 7" ∧
  answer (JObj [("order", JStr "5,3,9")]) = Err400 "Order must be an array".
Proof. by vm_compute. Qed.

(** * Further properties of the server *)

(** ** The selection store *)

Lemma length_delete_NoDup {A} `{EqDecision A} (s : JSSet.t (A:=A)) (x : A) :
  NoDup s →
  length (JSSet.delete s x) = (length s - (if bool_decide (x ∈ s) then 1 else 0))%nat.
Proof.
  unfold JSSet.delete. induction 1 as [|y s Hy Hs IH].
  - by rewrite bool_decide_eq_false_2 by apply not_elem_of_nil.
  - rewrite filter_cons. destruct (decide (y ≠ x)) as [Hne|Heq].
    + cbn [length]. etrans; [apply f_equal, IH|]. case_bool_decide as Hx.
      * rewrite bool_decide_eq_true_2 by (by right).
        apply list_elem_of_lookup in Hx as [i Hi]. apply lookup_lt_Some in Hi. lia.
      * rewrite bool_decide_eq_false_2; [lia|]. by intros [->|?]%elem_of_cons.
    + apply dec_stable in Heq as ->. rewrite bool_decide_eq_true_2 by (by left).
      etrans; [apply IH|]. rewrite bool_decide_eq_false_2 by done. cbn [length]. lia.
Qed.

Lemma NoDup_delete {A} `{EqDecision A} (s : JSSet.t (A:=A)) (x : A) :
  NoDup s → NoDup (JSSet.delete s x).
Proof. intros. by apply NoDup_filter. Qed.

Lemma add_idempotent {A} `{EqDecision A} (s : JSSet.t (A:=A)) (x : A) :
  JSSet.add (JSSet.add s x) x = JSSet.add s x.
Proof.
  unfold JSSet.add at 1. assert (JSSet.has (JSSet.add s x) x = true) as ->; [|done].
  apply has_spec, elem_of_add. by left.
Qed.

Lemma delete_idempotent {A} `{EqDecision A} (s : JSSet.t (A:=A)) (x : A) :
  JSSet.delete (JSSet.delete s x) x = JSSet.delete s x.
Proof. unfold JSSet.delete. rewrite list_filter_filter. apply list_filter_iff. tauto. Qed.

Lemma in_range_spec (n : number) :
  in_range n ↔ ¬ (n < Qc_of_Z 1 ∨ Qc_of_Z universe_size < n)%Qc.
Proof. unfold in_range. by rewrite in_range_iff. Qed.

(** What [POST /api/update-selection] does with an accepted id *)
Lemma handle_update_selection_accept (st : State) (body : json) (id : number) :
  get_field "id" body = Some (JNum id) → in_range id →
  handle_update_selection st body
  = let st' := {| customOrder := customOrder st;
                  selectedItems :=
                    if truthy (get_field "selected" body)
                    then JSSet.add (selectedItems st) id
                    else JSSet.delete (selectedItems st) id;
                  searchCache := searchCache st |} in
    (Ok200 {| sel_success := true; sel_selected := get_field "selected" body;
              sel_selectedCount := JSSet.size (selectedItems st') |}, st').
Proof.
  intros Hid Hr. unfold handle_update_selection. rewrite Hid.
  by rewrite bool_decide_eq_false_2 by (by apply in_range_spec).
Qed.

Lemma handle_update_selection_reject (st : State) (body : json) :
  (∀ id, get_field "id" body = Some (JNum id) → ¬ in_range id) →
  handle_update_selection st body = (Err400 "Invalid item ID", st).
Proof.
  intros Hrej. unfold handle_update_selection.
  destruct (get_field "id" body) as [[| |id| | |]|]; try done.
  rewrite bool_decide_eq_true_2; [done|].
  destruct (decide (id < Qc_of_Z 1 ∨ Qc_of_Z universe_size < id)%Qc) as [?|Hin]; [done|].
  exfalso. apply (Hrej id eq_refl). by apply in_range_spec.
Qed.

(** ** Invariants of the reachable states *)

Lemma numbers_of_valid (order : list json) :
  validate_order order JSSet.empty = None →
  Forall in_range (numbers_of order) ∧ NoDup (numbers_of order).
Proof.
  intros (Hacc & Hnd & _)%validate_order_None.
  pose proof (numbers_of_accepted order Hacc) as Heq. split.
  - apply Forall_forall. intros n Hn. rewrite Forall_forall in Hacc.
    destruct (Hacc (JNum n)) as (m & [= <-] & Hr); [|done].
    rewrite <-Heq. by apply list_elem_of_fmap_2.
  - apply (NoDup_fmap_1 JNum). by rewrite Heq.
Qed.

Section server_extras.
Variable toString_other : number → string.

Lemma handle_update_order_cases (st : State) (body : json) :
  (∃ order, get_field "order" body = Some (JArr order) ∧
            validate_order order JSSet.empty = None ∧
            handle_update_order toString_other st body
            = (Ok200 {| order_success := true;
                        order_message :=
                          "Order updated with " +:+ decimal (Z.of_nat (length order))
                          +:+ " items" |},
               {| customOrder := Some (numbers_of order);
                  selectedItems := selectedItems st;
                  searchCache := ∅ |}))
  ∨ (∃ msg, handle_update_order toString_other st body = (Err400 msg, st))
  ∨ handle_update_order toString_other st body
    = (Err500 "Failed to update order" None, st).
Proof.
  unfold handle_update_order, check_order.
  destruct (get_field "order" body) as [[| | | |order|]|] eqn:Hf;
    try (right; left; by eexists).
  destruct (validate_order order JSSet.empty) as [e|] eqn:Hv.
  - right. destruct (order_error_message toString_other e); [left; by eexists|by right].
  - left. by exists order.
Qed.

Lemma handle_update_selection_cases (st : State) (body : json) :
  (∃ id, get_field "id" body = Some (JNum id) ∧ in_range id)
  ∨ ((∀ id, get_field "id" body = Some (JNum id) → ¬ in_range id) ∧
     handle_update_selection st body = (Err400 "Invalid item ID", st)).
Proof.
  destruct (get_field "id" body) as [[| |id| | |]|] eqn:Hf;
    try (right; split; [done|]; apply handle_update_selection_reject; by rewrite Hf).
  destruct (decide (id < Qc_of_Z 1 ∨ Qc_of_Z universe_size < id)%Qc) as [Hout|Hin].
  - right. assert (∀ id0, get_field "id" body = Some (JNum id0) → ¬ in_range id0) as Hrej.
    { rewrite Hf. intros ? [= <-] Hr. by apply in_range_spec in Hr. }
    split; [by rewrite Hf in Hrej|]. by apply handle_update_selection_reject.
  - left. exists id. split; [done|]. by apply in_range_spec.
Qed.

Lemma handle_items_keeps (st : State) (q : Query) :
  customOrder (handle_items toString_other st q).1.2 = customOrder st ∧
  selectedItems (handle_items toString_other st q).1.2 = selectedItems st.
Proof.
  destruct (handle_items_state toString_other st q) as [->|[term ->]]; [done|].
  apply resolve_ids_keeps.
Qed.

Lemma order_valid_step (st : State) (r : request) :
  order_valid st → order_valid (step toString_other st r).
Proof.
  intros Hst. destruct r as [q|body|body|]; cbn [step]; [| | |done].
  - unfold order_valid. by rewrite (proj1 (handle_items_keeps st q)).
  - destruct (handle_update_order_cases st body)
      as [(order & _ & Hv & ->)|[[msg ->]| ->]]; [|done..].
    intros o [= <-]. by apply numbers_of_valid.
  - destruct (handle_update_selection_cases st body) as [(id & Hid & Hr)|[_ ->]]; [|done].
    by rewrite (handle_update_selection_accept st body id).
Qed.

Lemma selection_valid_step (st : State) (r : request) :
  selection_valid st → selection_valid (step toString_other st r).
Proof.
  intros [Hr Hnd]. destruct r as [q|body|body|]; cbn [step]; [| | |done].
  - unfold selection_valid. by rewrite (proj2 (handle_items_keeps st q)).
  - by destruct (handle_update_order_cases st body)
      as [(order & _ & Hv & ->)|[[msg ->]| ->]].
  - destruct (handle_update_selection_cases st body) as [(id & Hid & Hin)|[_ ->]]; [|done].
    rewrite (handle_update_selection_accept st body id) by done.
    unfold selection_valid. cbn [snd selectedItems].
    destruct (truthy _); split.
    + apply Forall_forall. intros x [->|Hx]%elem_of_add; [done|].
      rewrite Forall_forall in Hr. by apply Hr.
    + by apply NoDup_add.
    + apply Forall_forall. intros x [_ Hx]%elem_of_delete.
      rewrite Forall_forall in Hr. by apply Hr.
    + by apply NoDup_delete.
Qed.

Lemma reachable_valid (st : State) :
  reachable toString_other st → order_valid st ∧ selection_valid st.
Proof.
  intros [rs ->]. induction rs as [|r rs [IHo IHs]] using rev_ind.
  - split; [by intros order|]. split; constructor.
  - rewrite foldl_snoc. split; [by apply order_valid_step|by apply selection_valid_step].
Qed.

(** X1: in every state the server can reach, a custom order that is present
    holds Numbers between 1 and 1000000, none of them twice. *)
Theorem X1_reachable_custom_order_is_valid (st : State) (order : list number) :
  reachable toString_other st → customOrder st = Some order →
  Forall in_range order ∧ NoDup order.
Proof. intros [Hord _]%reachable_valid Ho. by apply Hord. Qed.

(** X2: in every reachable state the selection holds Numbers between 1 and
    1000000, and [GET /api/state] lists each selected id once, with
    [selectedCount] the number of ids listed. *)
Theorem X2_reachable_selection_is_valid (st : State) :
  reachable toString_other st →
  Forall in_range (st_selected (handle_state st)) ∧
  NoDup (st_selected (handle_state st)) ∧
  (∀ id, id ∈ st_selected (handle_state st) ↔ id ∈ selectedItems st) ∧
  st_selectedCount (handle_state st)
  = Z.of_nat (length (st_selected (handle_state st))).
Proof. intros [_ [Hr Hnd]]%reachable_valid. by split_and!. Qed.

(** ** [POST /api/update-selection] *)

(** X3: [update-selection] answers 400 "Invalid item ID" and leaves the
    state as it is exactly when [id] is missing, is not a Number, or lies
    outside 1..1000000; otherwise it answers 200 and echoes [selected]. *)
Theorem X3_update_selection_validation (st : State) (body : json) :
  (∃ id b st', get_field "id" body = Some (JNum id) ∧ in_range id ∧
               handle_update_selection st body = (Ok200 b, st') ∧
               sel_success b = true ∧ sel_selected b = get_field "selected" body)
  ∨ ((∀ id, get_field "id" body = Some (JNum id) → ¬ in_range id) ∧
     handle_update_selection st body = (Err400 "Invalid item ID", st)).
Proof.
  destruct (handle_update_selection_cases st body) as [(id & Hid & Hr)|?]; [left|by right].
  exists id. rewrite (handle_update_selection_accept st body id) by done.
  cbv zeta. eexists _, _. by split_and!.
Qed.

(** X4: sending the same [update-selection] request a second time gives the
    same answer and changes nothing more. *)
Theorem X4_update_selection_idempotent (st : State) (body : json) :
  handle_update_selection (handle_update_selection st body).2 body
  = handle_update_selection st body.
Proof.
  destruct (handle_update_selection_cases st body) as [(id & Hid & Hr)|[_ Hrej]].
  - rewrite !(handle_update_selection_accept _ body id) by done.
    cbv zeta. cbn [snd selectedItems customOrder searchCache].
    destruct (truthy _); by rewrite ?add_idempotent, ?delete_idempotent.
  - by rewrite !Hrej.
Qed.

(** X5: in a reachable state, an accepted [update-selection] makes [id]
    selected exactly when [selected] is truthy, leaves every other id, the
    custom order and the search cache as they were, and reports the new
    size of the selection: one more if the id was added, one less if it was
    removed, the same otherwise. *)
Theorem X5_update_selection_effect (st : State) (body : json) (id : number) :
  reachable toString_other st →
  get_field "id" body = Some (JNum id) → in_range id →
  let st' := (handle_update_selection st body).2 in
  let on := truthy (get_field "selected" body) in
  let was := bool_decide (id ∈ selectedItems st) in
  (id ∈ selectedItems st' ↔ on = true) ∧
  (∀ x, x ≠ id → x ∈ selectedItems st' ↔ x ∈ selectedItems st) ∧
  customOrder st' = customOrder st ∧ searchCache st' = searchCache st ∧
  ∃ b, (handle_update_selection st body).1 = Ok200 b ∧
       sel_selectedCount b = st_selectedCount (handle_state st') ∧
       sel_selectedCount b
       = st_selectedCount (handle_state st)
         + (if on then (if was then 0 else 1) else (if was then -1 else 0)).
Proof.
  intros [_ [_ Hnd]]%reachable_valid Hid Hr st' on was. unfold st'.
  rewrite (handle_update_selection_accept st body id) by done.
  cbv zeta. cbn [fst snd selectedItems customOrder searchCache]. fold on.
  split_and!; [| |done|done|].
  - destruct on.
    + rewrite elem_of_add. split; [done|]. by left.
    + rewrite elem_of_delete. split; [by intros [? _]|done].
  - intros x Hx. destruct on.
    + rewrite elem_of_add. split; [by intros [?|?]|by right].
    + rewrite elem_of_delete. tauto.
  - eexists. split; [done|]. split; [done|].
    cbn [sel_selectedCount handle_state st_selectedCount selectedItems].
    unfold JSSet.size. destruct on.
    + unfold JSSet.add, JSSet.has. fold was. destruct was; [lia|].
      rewrite length_app. cbn [length]. lia.
    + rewrite length_delete_NoDup by done. fold was. unfold was.
      case_bool_decide as Hin; [|lia].
      apply list_elem_of_lookup in Hin as [i Hi]. apply lookup_lt_Some in Hi. lia.
Qed.
End server_extras.

(** ** Slices of the natural order, and pages side by side *)

Lemma concat_slices {T} (ids : list T) (l : Z) (k : nat) :
  1 ≤ l →
  concat ((λ p, slice ids (Some ((p - 1) * l)) (Some ((p - 1) * l + l)))
            <$> seqZ 1 (Z.of_nat k))
  = take (k * Z.to_nat l) ids.
Proof.
  intros Hl. induction k as [|k IH]; [done|].
  rewrite seqZ_S, fmap_app, concat_app, IH. cbn [fmap list_fmap concat].
  rewrite app_nil_r. rewrite slice_nonneg by nia.
  replace (Z.to_nat ((1 + Z.of_nat k - 1) * l)) with (k * Z.to_nat l)%nat by nia.
  replace (Z.to_nat ((1 + Z.of_nat k - 1) * l + l - (1 + Z.of_nat k - 1) * l))
    with (Z.to_nat l) by lia.
  rewrite take_take_drop. f_equal. lia.
Qed.

Section listing_extras.
Variable toString_other : number → string.

Lemma resolve_ids_total (st : State) (searchTerm : string) :
  cache_consistent st →
  (resolve_ids st searchTerm).1.1.2
  = Z.of_nat (length (resolve_ids st searchTerm).1.1.1).
Proof.
  intros Hst. destruct (decide (searchTerm = "")) as [->|Hne].
  - rewrite resolve_ids_no_search.
    destruct (customOrder st) as [[|id rest]|]; cbn [fst snd]; by rewrite ?length_universe.
  - by rewrite (resolve_ids_search st searchTerm Hne Hst).
Qed.

(** X6: in a reachable state, for a request whose [search] string is
    ASCII, [total] is the length of the id sequence the page is cut from
    (the one its normalized term resolves to); the page holds the ids from
    position (p - 1) * l on, at most l of them; [hasMore] is true exactly
    when p * l < total, and when it is false the page runs to the end of the
    sequence. *)
Theorem X6_total_and_hasMore (st : State) (q : Query) (search : string)
    (p l : Z) (b : ItemsBody) :
  reachable toString_other st →
  default (QStr "") (q_search q) = QStr search → ascii_only search = true →
  pageNum_of q = Some p → limitNum_of q = Some l →
  (handle_items toString_other st q).1.1 = Ok200 b →
  let ids := (resolve_ids st (trim (toLowerCase search))).1.1.1 in
  total b = Z.of_nat (length ids) ∧
  ids_of (items b) = take (Z.to_nat l) (drop (Z.to_nat ((p - 1) * l)) ids) ∧
  (hasMore b = true ↔ p * l < total b) ∧
  (hasMore b = false → ids_of (items b) = drop (Z.to_nat ((p - 1) * l)) ids).
Proof.
  intros Hreach%reachable_cache_consistent Hs _ Hp Hl Hb ids.
  rewrite (handle_items_string _ _ q search) in Hb by done.
  cbv zeta in Hb. cbn [fst snd] in Hb. injection Hb as <-.
  pose proof (resolve_ids_total st (trim (toLowerCase search)) Hreach) as Htot.
  fold ids in Htot |- *.
  unfold paginate. rewrite Hp, Hl.
  cbn [fst items total hasMore mbind option_bind lt_total].
  apply pageNum_of_ge_1 in Hp. apply limitNum_of_range in Hl.
  rewrite ids_of_generateItem, slice_nonneg by nia.
  replace ((p - 1) * l + l - (p - 1) * l) with l by lia.
  rewrite Htot, bool_decide_eq_true, bool_decide_eq_false.
  split_and!; [done|done|split; lia|].
  intros Hend. apply take_ge. rewrite length_drop. nia.
Qed.

(** X7: every item of a response is generated from the state as it is when
    the request arrives, cached search or not: its [selected] flag says
    whether its id is in the selection now, and its text is "Item " followed
    by the id. *)
Theorem X7_items_reflect_current_selection (st : State) (q : Query) (b : ItemsBody) :
  (handle_items toString_other st q).1.1 = Ok200 b →
  Forall (λ item,
            (item_selected item = true ↔ item_id item ∈ selectedItems st) ∧
            item_text item = "Item " +:+ number_toString toString_other (item_id item))
         (items b).
Proof.
  intros Hb. destruct (default (QStr "") (q_search q)) as [search| |] eqn:Hs;
    [|unfold handle_items in Hb; by rewrite Hs in Hb..].
  rewrite (handle_items_string _ _ q search) in Hb by done.
  cbv zeta in Hb. cbn [fst snd] in Hb. injection Hb as <-.
  unfold paginate. cbn [fst items]. apply Forall_forall.
  intros item (id & -> & _)%list_elem_of_fmap. unfold generateItem.
  cbn [item_selected item_id item_text].
  rewrite (proj2 (resolve_ids_keeps st _)). by rewrite has_spec.
Qed.

(** X8: with no custom order (or the empty one) and no search term, page p
    with limit l lists the ids (p - 1) * l + 1, (p - 1) * l + 2, ... in
    ascending order, l of them or as many as remain below 1000000, with
    [total = 1000000] and [hasMore] true exactly when p * l < 1000000; the
    response echoes the page when it is at most 2^53. *)
Theorem X8_natural_order_listing (st : State) (q : Query) (search : string) (p l : Z) :
  customOrder st = None ∨ customOrder st = Some [] →
  default (QStr "") (q_search q) = QStr search → trim (toLowerCase search) = "" →
  pageNum_of q = Some p → limitNum_of q = Some l →
  ∃ b, (handle_items toString_other st q).1.1 = Ok200 b ∧
       ids_of (items b)
       = Qc_of_Z <$> seqZ ((p - 1) * l + 1) (Z.min l (1000000 - (p - 1) * l)) ∧
       total b = 1000000 ∧ hasMore b = bool_decide (p * l < 1000000) ∧
       (p ≤ 2 ^ 53 → page b = Some p).
Proof.
  intros Hord Hs Hterm Hp Hl. rewrite (handle_items_string _ _ q search) by done.
  rewrite Hterm, resolve_ids_no_search.
  assert (match customOrder st with
          | Some (id :: rest) => (id :: rest, Z.of_nat (length (id :: rest)), st, [])
          | _ => (universe, universe_size, st, @nil log_line)
          end = (universe, universe_size, st, [])) as ->
    by (by destruct Hord as [-> | ->]).
  cbv zeta. cbn [fst snd]. eexists. split; [done|].
  rewrite Hp, Hl. apply pageNum_of_ge_1 in Hp. apply limitNum_of_range in Hl.
  destruct (paginate_universe toString_other st p l) as (Hitems & Htot & Hmore & Hpage);
    [lia..|].
  rewrite Hitems, Htot, Hmore, Hpage. split_and!; [|done..].
  apply (ids_of_generateItem toString_other st).
Qed.

(** X9: for a fixed id sequence and limit l, the pages 1, 2, ..., k put
    one after the other are the first k * l ids of the sequence: no id is
    skipped or repeated between pages. *)
Theorem X9_pages_concatenate (st : State) (ids : list number) (tot l : Z) (k : nat) :
  1 ≤ l →
  concat ((λ p, ids_of (items (paginate toString_other st (Some p) (Some l) ids tot).1))
            <$> seqZ 1 (Z.of_nat k))
  = take (k * Z.to_nat l) ids.
Proof.
  intros Hl. rewrite <-(concat_slices ids l k Hl). f_equal.
  apply list_fmap_ext. intros _ p _. unfold paginate. cbn [fst items mbind option_bind].
  apply ids_of_generateItem.
Qed.

(** X10: [GET /api/items] never changes the custom order or the selection,
    never drops or alters a cache entry, and can add an entry only under a
    non-empty term and only when the request has a [search] string: the
    term is then the normalized search string (stated for ASCII strings). *)
Theorem X10_listing_only_adds_to_cache (st : State) (q : Query) :
  let st' := (handle_items toString_other st q).1.2 in
  customOrder st' = customOrder st ∧ selectedItems st' = selectedItems st ∧
  (∀ term cache, searchCache st !! term = Some cache →
                 searchCache st' !! term = Some cache) ∧
  (∀ term, searchCache st !! term = None → is_Some (searchCache st' !! term) →
           term ≠ "" ∧ ∃ search, q_search q = Some (QStr search) ∧
                                 (ascii_only search = true →
                                  term = trim (toLowerCase search))).
Proof.
  intros st'. split; [apply handle_items_keeps|]. split; [apply handle_items_keeps|].
  unfold st'. destruct (default (QStr "") (q_search q)) as [search| |] eqn:Hs;
    [|unfold handle_items; rewrite Hs; split;
      [done|intros term Hn [? Hc]; cbn [fst snd] in Hc; congruence]..].
  rewrite (handle_items_string _ _ q search) by done. cbv zeta. cbn [fst snd].
  set (t := trim (toLowerCase search)).
  destruct (decide (t = "")) as [Ht|Ht].
  { rewrite Ht, resolve_ids_no_search.
    assert ((match customOrder st with
             | Some (id :: rest) => (id :: rest, Z.of_nat (length (id :: rest)), st, [])
             | _ => (universe, universe_size, st, @nil log_line)
             end).1.2 = st) as -> by (by destruct (customOrder st) as [[|??]|]).
    split; [done|]. intros term Hn [? Hc]. congruence. }
  destruct (searchCache st !! t) as [cache|] eqn:E.
  { rewrite (resolve_ids_hit st t cache) by done. cbn [fst snd].
    split; [done|]. intros term Hn [? Hc]. congruence. }
  rewrite resolve_ids_miss by done. cbn [fst snd searchCache]. split.
  - intros term cache Hc. rewrite lookup_insert_ne; [done|]. intros ->. congruence.
  - intros term Hn [c Hc]. destruct (decide (t = term)) as [<-|Hne].
    + split; [done|]. exists search. split; [|done].
      destruct (q_search q) as [v|] eqn:Hq; cbn in Hs; [by subst v|].
      injection Hs as <-. by exfalso.
    + rewrite lookup_insert_ne in Hc by done. congruence.
Qed.

(** [GET /api/items] answers 200 whenever [search] is absent or a string,
    whatever [page] and [limit] are; when [search] is an array or an object
    it answers 500 "Internal server error" and leaves the state as it is. *)
Lemma handle_items_status (st : State) (q : Query) :
  match default (QStr "") (q_search q) with
  | QStr _ => ∃ b, (handle_items toString_other st q).1.1 = Ok200 b
  | _ => handle_items toString_other st q
         = (Err500 "Internal server error"
              (Some "search.toLowerCase is not a function"),
            st, [LogError "Error in /api/items:"])
  end.
Proof.
  destruct (default (QStr "") (q_search q)) as [search| |] eqn:Hs;
    [|unfold handle_items; by rewrite Hs..].
  rewrite (handle_items_string _ _ q search) by done. by eexists.
Qed.

(** X11: [POST /api/update-order] has three outcomes.  It succeeds,
    replacing the custom order by the submitted array, emptying the search
    cache and keeping the selection, with a message that counts the
    submitted ids; or it answers 400 and leaves the whole state as it is; or
    it answers 500 "Failed to update order", again with the state as it is,
    which happens only when [order] is an array and one of its elements
    cannot be printed.  When [order] is missing or is not an array the
    answer is 400 "Order must be an array". *)
Theorem X11_update_order_outcomes (st : State) (body : json) :
  (∃ order, get_field "order" body = Some (JArr order) ∧
            handle_update_order toString_other st body
            = (Ok200 {| order_success := true;
                        order_message :=
                          "Order updated with " +:+ decimal (Z.of_nat (length order))
                          +:+ " items" |},
               {| customOrder := Some (numbers_of order);
                  selectedItems := selectedItems st;
                  searchCache := ∅ |}) ∧
            JNum <$> numbers_of order = order)
  ∨ (∃ msg, handle_update_order toString_other st body = (Err400 msg, st) ∧
            ((∀ order, get_field "order" body ≠ Some (JArr order)) →
             msg = "Order must be an array"))
  ∨ (handle_update_order toString_other st body
     = (Err500 "Failed to update order" None, st) ∧
     ∃ order v, get_field "order" body = Some (JArr order) ∧ v ∈ order ∧
                ¬ accepted_id v ∧ json_toString toString_other v = None).
Proof.
  unfold handle_update_order, check_order.
  destruct (get_field "order" body) as [[| | | |order|]|] eqn:Hf;
    try (right; left; eexists; by split).
  destruct (validate_order order JSSet.empty) as [e|] eqn:Hv.
  - right. destruct (order_error_message toString_other e) as [msg|] eqn:Hmsg.
    + left. exists msg. split; [done|]. intros Hno. by destruct (Hno order).
    + right. split; [done|]. exists order.
      destruct e as [|v|id]; [done| |done]. exists v.
      apply validate_order_Some
        in Hv as (pre & w & post & -> & _ & [[Hrej [= <-]]|(n & _ & _ & _ & [=])]).
      split_and!; [done|set_solver|done|].
      cbn [order_error_message] in Hmsg. by destruct (json_toString toString_other v).
  - left. exists order. split_and!; [done..|].
    apply numbers_of_accepted. by apply validate_order_None in Hv as (? & _).
Qed.
End listing_extras.

(** ** Decimal numerals: [parseInt] reads back what [`${n}`] prints *)

Ltac eval_digit_value :=
  match goal with
  | |- context [digit_value 10 ?c] =>
      let v := eval vm_compute in (digit_value 10 c) in
      change (digit_value 10 c) with v
  end.

Lemma parse_digits_of_uint_acc (u : Decimal.uint) (a : positive) :
  parse_digits 10 (NilEmpty.string_of_uint u) (Some (Z.pos a))
  = Some (Z.pos (Pos.of_uint_acc u a)).
Proof.
  revert a. induction u as [|u IH|u IH|u IH|u IH|u IH|u IH|u IH|u IH|u IH|u IH];
    intros a; [done|..];
    cbn [NilEmpty.string_of_uint parse_digits Pos.of_uint_acc];
    eval_digit_value; cbv iota beta; cbn [default from_option]; unfold id;
    (etrans; [|apply IH]); do 2 f_equal; lia.
Qed.

Lemma parse_digits_of_uint (u : Decimal.uint) (acc : option Z) :
  default 0 acc = 0 → u ≠ Decimal.Nil ∨ acc = Some 0 →
  parse_digits 10 (NilEmpty.string_of_uint u) acc = Some (Z.of_N (Pos.of_uint u)).
Proof.
  revert acc. induction u as [|u IH|u IH|u IH|u IH|u IH|u IH|u IH|u IH|u IH|u IH];
    intros acc Hacc Hnil.
  - by destruct Hnil as [?| ->].
  - cbn [NilEmpty.string_of_uint parse_digits Pos.of_uint].
    eval_digit_value. cbv iota beta. rewrite Hacc. apply IH; [done|by right].
  - cbn [NilEmpty.string_of_uint parse_digits Pos.of_uint]. eval_digit_value.
    cbv iota beta. rewrite Hacc. apply (parse_digits_of_uint_acc u 1).
  - cbn [NilEmpty.string_of_uint parse_digits Pos.of_uint]. eval_digit_value.
    cbv iota beta. rewrite Hacc. apply (parse_digits_of_uint_acc u 2).
  - cbn [NilEmpty.string_of_uint parse_digits Pos.of_uint]. eval_digit_value.
    cbv iota beta. rewrite Hacc. apply (parse_digits_of_uint_acc u 3).
  - cbn [NilEmpty.string_of_uint parse_digits Pos.of_uint]. eval_digit_value.
    cbv iota beta. rewrite Hacc. apply (parse_digits_of_uint_acc u 4).
  - cbn [NilEmpty.string_of_uint parse_digits Pos.of_uint]. eval_digit_value.
    cbv iota beta. rewrite Hacc. apply (parse_digits_of_uint_acc u 5).
  - cbn [NilEmpty.string_of_uint parse_digits Pos.of_uint]. eval_digit_value.
    cbv iota beta. rewrite Hacc. apply (parse_digits_of_uint_acc u 6).
  - cbn [NilEmpty.string_of_uint parse_digits Pos.of_uint]. eval_digit_value.
    cbv iota beta. rewrite Hacc. apply (parse_digits_of_uint_acc u 7).
  - cbn [NilEmpty.string_of_uint parse_digits Pos.of_uint]. eval_digit_value.
    cbv iota beta. rewrite Hacc. apply (parse_digits_of_uint_acc u 8).
  - cbn [NilEmpty.string_of_uint parse_digits Pos.of_uint]. eval_digit_value.
    cbv iota beta. rewrite Hacc. apply (parse_digits_of_uint_acc u 9).
Qed.

Lemma decimal_pos (p : positive) :
  decimal (Z.pos p) = NilEmpty.string_of_uint (Pos.to_uint p).
Proof.
  unfold decimal. cbn [Z.to_int NilZero.string_of_int]. unfold NilZero.string_of_uint.
  pose proof (Unsigned.to_uint_nonnil p). by destruct (Pos.to_uint p).
Qed.

Lemma decimal_neg (p : positive) :
  decimal (Z.neg p) = String "-" (NilEmpty.string_of_uint (Pos.to_uint p)).
Proof.
  unfold decimal. cbn [Z.to_int NilZero.string_of_int]. unfold NilZero.string_of_uint.
  pose proof (Unsigned.to_uint_nonnil p). by destruct (Pos.to_uint p).
Qed.

(** The digits of a positive integer read back as that integer. *)
Lemma parse_digits_decimal_pos (p : positive) :
  parse_digits 10 (decimal (Z.pos p)) None = Some (Z.pos p).
Proof.
  rewrite decimal_pos, parse_digits_of_uint;
    [|done|left; apply Unsigned.to_uint_nonnil].
  by rewrite DecimalPos.Unsigned.of_to.
Qed.

Lemma parseInt_unsigned (u : Decimal.uint) :
  u ≠ Decimal.Nil →
  parseInt (NilEmpty.string_of_uint u)
  = parse_digits 10 (NilEmpty.string_of_uint u) None ∧
  parseInt (String "-" (NilEmpty.string_of_uint u))
  = Z.opp <$> parse_digits 10 (NilEmpty.string_of_uint u) None.
Proof.
  assert (∀ o : option Z, Z.mul 1 <$> o = o) as H1
    by (intros [z|]; [cbn; f_equal; lia|done]).
  assert (∀ o : option Z, Z.mul (-1) <$> o = Z.opp <$> o) as Hm
    by (intros [z|]; [cbn; f_equal; lia|done]).
  intros Hu. destruct u as [|u|u|u|u|u|u|u|u|u|u]; [done|..];
    (split; [rewrite <-H1|rewrite <-Hm]); destruct u; reflexivity.
Qed.

(** [parseInt] of the decimal numeral of an integer is that integer. *)
Lemma parseInt_decimal (z : Z) : parseInt (decimal z) = Some z.
Proof.
  destruct z as [|p|p]; [done| |].
  - rewrite <-(parse_digits_decimal_pos p), decimal_pos.
    apply parseInt_unsigned, Unsigned.to_uint_nonnil.
  - rewrite decimal_neg.
    rewrite (proj2 (parseInt_unsigned _ (Unsigned.to_uint_nonnil p))).
    by rewrite <-decimal_pos, parse_digits_decimal_pos.
Qed.

(** X12: a [page] parameter that is the decimal numeral of an integer p at
    most 2^53 is read back as that integer and then clamped: the effective
    page is [max 1 p]; a [limit] parameter that is the decimal numeral of
    any integer l gives the effective limit [max 1 (min 100 l)]; an absent
    [page] counts as 1 and an absent [limit] as 20. *)
Theorem X12_numeric_page_and_limit (q : Query) :
  (∀ p, p ≤ 2 ^ 53 → q_page q = Some (QStr (decimal p)) →
        pageNum_of q = Some (Z.max 1 p)) ∧
  (q_page q = None → pageNum_of q = Some 1) ∧
  (∀ l, q_limit q = Some (QStr (decimal l)) →
        limitNum_of q = Some (Z.max 1 (Z.min 100 l))) ∧
  (q_limit q = None → limitNum_of q = Some 20).
Proof.
  unfold pageNum_of, limitNum_of. split_and!.
  - intros p _ ->. cbn [from_option qval_toString]. by rewrite parseInt_decimal.
  - by intros ->.
  - intros l ->. cbn [from_option qval_toString]. by rewrite parseInt_decimal.
  - by intros ->.
Qed.

(** ** Numerals are made of digits *)

Lemma string_app_nil_r (s : string) : s +:+ "" = s.
Proof.
  induction s as [|c s IH]; [done|].
  change (String c s +:+ "") with (String c (s +:+ "")). by f_equal.
Qed.

Lemma string_app_assoc (s1 s2 s3 : string) : (s1 +:+ s2) +:+ s3 = s1 +:+ s2 +:+ s3.
Proof.
  induction s1 as [|c s1 IH]; [done|].
  change ((String c s1 +:+ s2) +:+ s3) with (String c ((s1 +:+ s2) +:+ s3)).
  change (String c s1 +:+ s2 +:+ s3) with (String c (s1 +:+ s2 +:+ s3)). by f_equal.
Qed.

Lemma all_digits_app (s1 s2 : string) :
  all_digits (s1 +:+ s2) = all_digits s1 && all_digits s2.
Proof.
  induction s1 as [|c s1 IH]; [done|].
  change (String c s1 +:+ s2) with (String c (s1 +:+ s2)). cbn [all_digits].
  by rewrite IH, andb_assoc.
Qed.

Lemma all_digits_of_uint (u : Decimal.uint) :
  all_digits (NilEmpty.string_of_uint u) = true.
Proof. induction u; [done|cbn [NilEmpty.string_of_uint all_digits]; by rewrite IHu..]. Qed.

Lemma all_digits_decimal (z : Z) : 0 ≤ z → all_digits (decimal z) = true.
Proof.
  destruct z as [|p|p]; [done| |lia]. intros _.
  rewrite decimal_pos. apply all_digits_of_uint.
Qed.

Lemma decimal_pos_nonempty (p : positive) : decimal (Z.pos p) ≠ "".
Proof. intros He. pose proof (parse_digits_decimal_pos p) as Hp. by rewrite He in Hp. Qed.

Lemma includes_all_digits (s t : string) :
  includes s t = true → all_digits s = true → all_digits t = true.
Proof.
  intros (pre & post & ->)%includes_spec. rewrite !all_digits_app, !andb_true_iff. tauto.
Qed.

(** A term with a character that is not a digit matches no id. *)
Lemma matching_ids_non_digit (searchTerm : string) :
  all_digits searchTerm = false → matching_ids searchTerm = [].
Proof.
  intros Hnd. apply elem_of_nil_inv. intros id.
  rewrite elem_of_matching_ids. intros [Hr Hsub]. apply includes_spec in Hsub.
  apply includes_all_digits in Hsub; [congruence|]. apply all_digits_decimal. lia.
Qed.

(** ** The value of a numeral against its parts *)

Lemma digit_value_digit (c : ascii) :
  is_digit c = true → ∃ v, digit_value 10 c = Some v ∧ 0 ≤ v ≤ 9.
Proof.
  unfold is_digit, digit_value. intros Hd%bool_decide_eq_true.
  rewrite bool_decide_eq_true_2 by lia. cbn [mbind option_bind].
  rewrite bool_decide_eq_true_2 by lia. eexists. split; [done|lia].
Qed.

Lemma parse_digits_app (s1 s2 : string) (acc : option Z) :
  all_digits s1 = true →
  parse_digits 10 (s1 +:+ s2) acc = parse_digits 10 s2 (parse_digits 10 s1 acc).
Proof.
  revert acc. induction s1 as [|c s1 IH]; intros acc; [done|].
  cbn [all_digits]. intros [Hc Hs]%andb_true_iff.
  destruct (digit_value_digit c Hc) as (v & Hv & _).
  change (String c s1 +:+ s2) with (String c (s1 +:+ s2)).
  cbn [parse_digits]. rewrite Hv. by apply IH.
Qed.

Lemma parse_digits_default (s : string) (acc : option Z) :
  all_digits s = true → s ≠ "" →
  parse_digits 10 s acc = parse_digits 10 s (Some (default 0 acc)).
Proof.
  destruct s as [|c s]; [done|]. cbn [all_digits]. intros [Hc _]%andb_true_iff _.
  destruct (digit_value_digit c Hc) as (v & Hv & _).
  cbn [parse_digits]. by rewrite Hv.
Qed.

Lemma parse_digits_mono (s : string) (a a' : Z) :
  all_digits s = true → 0 ≤ a ≤ a' →
  ∃ v v', parse_digits 10 s (Some a) = Some v ∧ parse_digits 10 s (Some a') = Some v' ∧
          a ≤ v ∧ v ≤ v' ∧ a' ≤ v'.
Proof.
  revert a a'. induction s as [|c s IH]; intros a a' Hs Ha.
  - exists a, a'. by split_and!; [..|lia|lia|lia].
  - cbn [all_digits] in Hs. apply andb_true_iff in Hs as [Hc Hs].
    destruct (digit_value_digit c Hc) as (d & Hd & Hd9).
    cbn [parse_digits]. rewrite Hd. cbn [default from_option]. unfold id.
    destruct (IH (a * 10 + d) (a' * 10 + d) Hs) as (v & v' & Hv & Hv' & ? & ? & ?); [lia|].
    exists v, v'. split_and!; [done|done|lia..].
Qed.

(** If the numeral of [k] occurs inside the numeral of [id], then [k ≤ id]. *)
Lemma decimal_substring_le (k id : Z) (pre post : string) :
  1 ≤ k → 1 ≤ id → decimal id = pre +:+ decimal k +:+ post → k ≤ id.
Proof.
  intros Hk Hid Heq.
  destruct k as [|pk|pk]; [lia| |lia]. destruct id as [|pi|pi]; [lia| |lia].
  pose proof (all_digits_decimal (Z.pos pi) ltac:(lia)) as Hall.
  rewrite Heq, !all_digits_app, !andb_true_iff in Hall. destruct Hall as (Hpre & Hdk & Hpost).
  pose proof (parse_digits_decimal_pos pi) as Hval.
  rewrite Heq, !parse_digits_app in Hval by done.
  rewrite (parse_digits_default (decimal (Z.pos pk))) in Hval
    by (done || apply decimal_pos_nonempty).
  assert (0 ≤ default 0 (parse_digits 10 pre None)) as Hpre0.
  { destruct pre as [|c pre]; [done|].
    rewrite parse_digits_default by done. change (default 0 None) with 0.
    destruct (parse_digits_mono (String c pre) 0 0 Hpre) as (v & _ & Hv & _ & ? & _); [lia|].
    by rewrite Hv. }
  destruct (parse_digits_mono (decimal (Z.pos pk)) 0 _ Hdk (conj (Z.le_refl 0) Hpre0))
    as (v & v' & Hv & Hv' & _ & Hvv' & _).
  assert (parse_digits 10 (decimal (Z.pos pk)) (Some 0) = Some (Z.pos pk)) as Hk0.
  { etrans; [|apply (parse_digits_decimal_pos pk)]. symmetry.
    apply (parse_digits_default _ None); [done|apply decimal_pos_nonempty]. }
  rewrite Hk0 in Hv. injection Hv as <-.
  rewrite Hv' in Hval.
  destruct (parse_digits_mono post v' v' Hpost) as (w & _ & Hw & _ & ? & _); [lia|].
  rewrite Hw in Hval. injection Hval as ->. lia.
Qed.

(** The numeral of an id of the universe matches that id first. *)
Lemma matching_ids_decimal (k : Z) :
  1 ≤ k ≤ universe_size → ∃ rest, matching_ids (decimal k) = k :: rest.
Proof.
  intros Hk.
  assert (k ∈ matching_ids (decimal k)) as Hin.
  { apply elem_of_matching_ids. split; [done|]. exists "", "".
    by rewrite string_app_nil_r. }
  assert (∀ id, id ∈ matching_ids (decimal k) → k ≤ id) as Hmin.
  { intros id [Hr (pre & post & Heq)]%elem_of_matching_ids.
    apply (decimal_substring_le k id pre post); [lia|lia|done]. }
  pose proof (StronglySorted_matching_ids (decimal k)) as Hsorted.
  destruct (matching_ids (decimal k)) as [|x rest]; [by apply elem_of_nil in Hin|].
  exists rest. f_equal.
  apply StronglySorted_inv in Hsorted as [_ Hlt]. rewrite Forall_forall in Hlt.
  pose proof (Hmin x ltac:(by left)).
  apply elem_of_cons in Hin as [->|Hin]; [done|]. specialize (Hlt k Hin). lia.
Qed.

Section search_extras.
Variable toString_other : number → string.

(** X13: a search (an ASCII string) whose normalized term has a character
    that is not a digit finds nothing in any reachable state: no items,
    [total = 0], [hasMore = false]. The text "Item n" of an item is not
    searched. *)
Theorem X13_non_digit_search_finds_nothing (st : State) (q : Query)
    (search : string) (b : ItemsBody) :
  reachable toString_other st →
  default (QStr "") (q_search q) = QStr search → ascii_only search = true →
  all_digits (trim (toLowerCase search)) = false →
  (handle_items toString_other st q).1.1 = Ok200 b →
  items b = [] ∧ total b = 0 ∧ hasMore b = false.
Proof.
  intros Hreach%reachable_cache_consistent Hs _ Hnd Hb.
  rewrite (handle_items_string _ _ q search) in Hb by done.
  cbv zeta in Hb. cbn [fst snd] in Hb. injection Hb as <-.
  assert (trim (toLowerCase search) ≠ "") as Hne by (intros He; by rewrite He in Hnd).
  pose proof (resolve_ids_search st _ Hne Hreach) as Hres.
  rewrite compute_search_spec, matching_ids_non_digit in Hres by done.
  rewrite take_nil, fmap_nil in Hres.
  destruct (resolve_ids st _) as [[[ids tot] st'] logs]. cbn [fst snd] in *.
  injection Hres as -> ->. unfold paginate. cbn [fst items total hasMore].
  assert (∀ s e, slice (@nil number) s e = []) as ->
    by (intros s e; apply sublist_nil_r, slice_sublist).
  split_and!; [done|done|].
  destruct (pageNum_of q) as [p|] eqn:Hp; [|done].
  destruct (limitNum_of q) as [l|] eqn:Hl; [|done].
  apply pageNum_of_ge_1 in Hp. apply limitNum_of_range in Hl.
  cbn [mbind option_bind lt_total]. apply bool_decide_eq_false. nia.
Qed.

(** X14: in a reachable state, a search for the decimal numeral of an id
    between 1 and 1000000 lists that id first on page 1. *)
Theorem X14_numeral_search_lists_the_id_first (st : State) (q : Query)
    (search : string) (k l : Z) :
  reachable toString_other st →
  default (QStr "") (q_search q) = QStr search →
  1 ≤ k ≤ 1000000 → trim (toLowerCase search) = decimal k →
  pageNum_of q = Some 1 → limitNum_of q = Some l →
  ∃ b rest, (handle_items toString_other st q).1.1 = Ok200 b ∧
            ids_of (items b) = Qc_of_Z k :: rest.
Proof.
  intros Hreach%reachable_cache_consistent Hs Hk Hterm Hp Hl.
  rewrite (handle_items_string _ _ q search) by done. rewrite Hterm.
  cbv zeta. cbn [fst snd].
  assert (decimal k ≠ "") as Hne
    by (destruct k as [|p|p]; [lia|apply decimal_pos_nonempty|lia]).
  pose proof (resolve_ids_search st _ Hne Hreach) as Hres.
  destruct (matching_ids_decimal k) as [rest Hrest]; [by rewrite universe_size_eq|].
  rewrite compute_search_spec, Hrest in Hres.
  replace (Z.to_nat search_cap) with (S (Z.to_nat 999)) in Hres
    by (rewrite search_cap_eq; lia).
  cbn [take] in Hres. rewrite fmap_cons in Hres.
  destruct (resolve_ids st _) as [[[ids tot] st'] logs]. cbn [fst snd] in *.
  injection Hres as -> ->. eexists _, _. split; [reflexivity|].
  unfold paginate. rewrite Hp, Hl.
  cbn [fst items mbind option_bind]. rewrite ids_of_generateItem.
  apply limitNum_of_range in Hl. rewrite slice_nonneg by lia.
  replace (Z.to_nat ((1 - 1) * l + l - (1 - 1) * l)) with (S (Z.to_nat (l - 1))) by lia.
  replace (Z.to_nat ((1 - 1) * l)) with 0%nat by lia.
  cbn [drop take]. reflexivity.
Qed.
End search_extras.

(** ** The earlier text search and the current numeral search *)

Lemma char_toLowerCase_digit (c : ascii) : is_digit c = true → char_toLowerCase c = c.
Proof.
  unfold is_digit, char_toLowerCase. intros Hd%bool_decide_eq_true.
  by rewrite bool_decide_eq_false_2 by lia.
Qed.

Lemma toLowerCase_digits (s : string) : all_digits s = true → toLowerCase s = s.
Proof.
  induction s as [|c s IH]; [done|]. cbn [all_digits toLowerCase].
  intros [Hc Hs]%andb_true_iff. by rewrite char_toLowerCase_digit, IH.
Qed.

Lemma toLowerCase_app (s1 s2 : string) :
  toLowerCase (s1 +:+ s2) = toLowerCase s1 +:+ toLowerCase s2.
Proof.
  induction s1 as [|c s1 IH]; [done|].
  change (String c s1 +:+ s2) with (String c (s1 +:+ s2)). cbn [toLowerCase].
  by rewrite IH.
Qed.

Lemma is_digit_not_white_space (c : ascii) : is_digit c = true → is_white_space c = false.
Proof.
  unfold is_digit, is_white_space. intros Hd%bool_decide_eq_true.
  by rewrite !bool_decide_eq_false_2 by lia.
Qed.

Lemma trimStart_digits (s : string) : all_digits s = true → trimStart s = s.
Proof.
  destruct s as [|c s]; [done|]. cbn [all_digits trimStart].
  intros [Hc _]%andb_true_iff. by rewrite is_digit_not_white_space.
Qed.

Lemma rev_app_rev_app (s a b : string) :
  String.rev_app (String.rev_app s a) b = String.rev_app a (s +:+ b).
Proof.
  revert a. induction s as [|c s IH]; intros a; [done|].
  cbn [String.rev_app]. by rewrite IH.
Qed.

Lemma rev_involutive (s : string) : String.rev (String.rev s) = s.
Proof. unfold String.rev. rewrite rev_app_rev_app. cbn. apply string_app_nil_r. Qed.

Lemma all_digits_rev_app (s a : string) :
  all_digits s = true → all_digits a = true → all_digits (String.rev_app s a) = true.
Proof.
  revert a. induction s as [|c s IH]; intros a; [done|].
  cbn [all_digits String.rev_app]. intros [Hc Hs]%andb_true_iff Ha.
  apply IH; [done|]. cbn [all_digits]. by rewrite Hc, Ha.
Qed.

(** Normalization leaves a string of digits as it is. *)
Lemma normalize_digits (s : string) : all_digits s = true → trim (toLowerCase s) = s.
Proof.
  intros Hs. rewrite toLowerCase_digits by done. unfold trim, trimEnd.
  rewrite (trimStart_digits s) by done.
  rewrite trimStart_digits by (by apply all_digits_rev_app).
  apply rev_involutive.
Qed.

Lemma includes_skip (c b : ascii) (s t : string) :
  c ≠ b → includes (String c s) (String b t) = includes s (String b t).
Proof.
  intros Hne. cbn [includes startsWith]. by rewrite bool_decide_eq_false_2 by done.
Qed.

(** A term that starts with a digit occurs in "item n" only inside n. *)
Lemma includes_item_prefix (d t : string) (b : ascii) :
  is_digit b = true →
  includes ("item " +:+ d) (String b t) = includes d (String b t).
Proof.
  intros Hb.
  change ("item " +:+ d)
    with (String "i" (String "t" (String "e" (String "m" (String " " d))))).
  rewrite !includes_skip; [done|intros <-; by vm_compute in Hb..].
Qed.

Lemma filter_fmap {A B} (f : A → B) (P : B → Prop) `{!∀ x, Decision (P x)} (l : list A) :
  filter P (f <$> l) = f <$> filter (λ x, P (f x)) l.
Proof.
  induction l as [|x l IH]; [done|]. rewrite fmap_cons, !filter_cons, IH.
  by destruct (decide (P (f x))).
Qed.

Lemma old_items_eq :
  old_items
  = (λ z, {| item_id := Qc_of_Z z; item_text := "Item " +:+ decimal z;
             item_selected := false |}) <$> seqZ 1 universe_size.
Proof.
  unfold old_items.
  rewrite (Array_from_succ (λ z, {| item_id := Qc_of_Z z;
                                      item_text := "Item " +:+ decimal z;
                                      item_selected := false |})).
  by rewrite Z2Nat.id by (rewrite universe_size_eq; lia).
Qed.

#[local] Opaque old_items.

(** X15: for a non-empty term made of digits, the text search of the
    earlier server over its million items selects the items whose id the
    current numeral search matches, in the same ascending order; the
    current scan returns the ids of the first 1000 of them, and
    normalization does not change such a term. *)
Theorem X15_numeral_search_agrees_with_text_search (search : string) :
  all_digits search = true → search ≠ "" →
  item_id <$> old_search_filter search old_items = Qc_of_Z <$> matching_ids search ∧
  trim (toLowerCase search) = search ∧
  compute_search search
  = take 1000%nat (item_id <$> old_search_filter search old_items).
Proof.
  intros Hd Hne.
  assert (item_id <$> old_search_filter search old_items
          = Qc_of_Z <$> matching_ids search) as Hold.
  { unfold old_search_filter. rewrite bool_decide_eq_true_2 by done.
    rewrite old_items_eq, filter_fmap, <-list_fmap_compose.
    unfold matching_ids. cbn [item_text].
    erewrite (list_filter_iff _ (λ id, includes (decimal id) search = true)); [done|].
    intros id. rewrite toLowerCase_app, (toLowerCase_digits search) by done.
    change (toLowerCase "Item ") with "item ".
    destruct search as [|b t]; [done|]. cbn [all_digits] in Hd.
    apply andb_true_iff in Hd as [Hb _]. rewrite includes_item_prefix by done.
    destruct (decide (0 ≤ id)) as [Hid|Hid].
    - by rewrite toLowerCase_digits by (by apply all_digits_decimal).
    - destruct id as [|p|p]; [lia..|]. rewrite decimal_neg. cbn [toLowerCase].
      change (char_toLowerCase "-") with "-"%char.
      by rewrite toLowerCase_digits by apply all_digits_of_uint. }
  split_and!; [done|by apply normalize_digits|].
  rewrite Hold, compute_search_spec, fmap_take. by rewrite search_cap_eq.
Qed.

(** ** More on the Order Resolver *)

Section order_resolver_extras.
Context {A : Type} `{EqDecision A}.

Lemma elem_of_applyCustomOrder (order ids : list A) (x : A) :
  NoDup order → x ∈ applyCustomOrder (Some order) ids ↔ x ∈ ids.
Proof.
  intros Hord. rewrite applyCustomOrder_Some by done.
  rewrite elem_of_app, !list_elem_of_filter.
  destruct (decide (x ∈ order)); tauto.
Qed.

Lemma filter_all (P : A → Prop) `{!∀ x, Decision (P x)} (l : list A) :
  (∀ x, x ∈ l → P x) → filter P l = l.
Proof.
  induction l as [|y l IH]; intros Hall; [done|].
  rewrite filter_cons_True by (apply Hall; by left).
  f_equal. apply IH. intros x Hx. apply Hall. by right.
Qed.

Lemma filter_none (P : A → Prop) `{!∀ x, Decision (P x)} (l : list A) :
  (∀ x, x ∈ l → ¬ P x) → filter P l = [].
Proof.
  induction l as [|y l IH]; intros Hnone; [done|].
  rewrite filter_cons_False by (apply Hnone; by left).
  apply IH. intros x Hx. apply Hnone. by right.
Qed.

(** X16: for a custom order of distinct ids, [applyCustomOrder] keeps
    exactly the ids of the candidates (with or without repetitions among
    them); applying it a second time changes nothing; candidates none of
    which is in the custom order come back unchanged; and when the custom
    order holds exactly the candidates, the result is the custom order. *)
Theorem X16_applyCustomOrder_fixpoints (order ids : list A) :
  NoDup order →
  (∀ x, x ∈ applyCustomOrder (Some order) ids ↔ x ∈ ids) ∧
  applyCustomOrder (Some order) (applyCustomOrder (Some order) ids)
  = applyCustomOrder (Some order) ids ∧
  ((∀ x, x ∈ ids → x ∉ order) → applyCustomOrder (Some order) ids = ids) ∧
  ((∀ x, x ∈ order ↔ x ∈ ids) → applyCustomOrder (Some order) ids = order).
Proof.
  intros Hord. split_and!.
  - intros x. by apply elem_of_applyCustomOrder.
  - rewrite (applyCustomOrder_Some order (applyCustomOrder _ _)) by done.
    rewrite (list_filter_iff (.∈ applyCustomOrder (Some order) ids) (.∈ ids))
      by (intros x; by apply elem_of_applyCustomOrder).
    rewrite !(applyCustomOrder_Some order ids) by done. f_equal.
    rewrite filter_app.
    rewrite (filter_none _ (filter _ order))
      by (intros x [_ Hx]%list_elem_of_filter Hn; done).
    rewrite app_nil_l. apply filter_all. by intros x [? _]%list_elem_of_filter.
  - intros Hdisj. rewrite applyCustomOrder_Some by done.
    rewrite filter_none by (intros x Hx Hi; by apply (Hdisj x)).
    rewrite app_nil_l. by apply filter_all.
  - intros Hsame. rewrite applyCustomOrder_Some by done.
    rewrite filter_all by (intros x Hx; by apply Hsame).
    rewrite filter_none by (intros x Hx Hn; by apply Hn, Hsame).
    by rewrite app_nil_r.
Qed.
End order_resolver_extras.

(** ** Normalization of the search term *)

Lemma is_white_space_toLowerCase (c : ascii) :
  is_white_space (char_toLowerCase c) = is_white_space c.
Proof.
  unfold char_toLowerCase. case_bool_decide as Hc; [|done].
  unfold is_white_space. rewrite nat_ascii_embedding by lia.
  by rewrite !bool_decide_eq_false_2 by lia.
Qed.

Lemma char_toLowerCase_idempotent (c : ascii) :
  char_toLowerCase (char_toLowerCase c) = char_toLowerCase c.
Proof.
  unfold char_toLowerCase at 2 3. case_bool_decide as Hc.
  - unfold char_toLowerCase. rewrite nat_ascii_embedding by lia.
    by rewrite bool_decide_eq_false_2 by lia.
  - unfold char_toLowerCase. by rewrite bool_decide_eq_false_2.
Qed.

Lemma toLowerCase_idempotent (s : string) : toLowerCase (toLowerCase s) = toLowerCase s.
Proof.
  induction s as [|c s IH]; [done|]. cbn [toLowerCase].
  by rewrite char_toLowerCase_idempotent, IH.
Qed.

Lemma toLowerCase_trimStart (s : string) :
  toLowerCase (trimStart s) = trimStart (toLowerCase s).
Proof.
  induction s as [|c s IH]; [done|]. cbn [toLowerCase trimStart].
  rewrite is_white_space_toLowerCase. by destruct (is_white_space c).
Qed.

Lemma toLowerCase_rev_app (s a : string) :
  toLowerCase (String.rev_app s a) = String.rev_app (toLowerCase s) (toLowerCase a).
Proof.
  revert a. induction s as [|c s IH]; intros a; [done|].
  cbn [String.rev_app toLowerCase]. by rewrite IH.
Qed.

Lemma toLowerCase_trim (s : string) : toLowerCase (trim s) = trim (toLowerCase s).
Proof.
  unfold trim, trimEnd, String.rev.
  by rewrite toLowerCase_rev_app, toLowerCase_trimStart, toLowerCase_rev_app,
    toLowerCase_trimStart.
Qed.

Lemma rev_app_append (s a b : string) :
  String.rev_app s (a +:+ b) = String.rev_app s a +:+ b.
Proof.
  revert a. induction s as [|c s IH]; intros a; [done|].
  cbn [String.rev_app]. by rewrite <-IH.
Qed.

Lemma rev_app_of_append (a b acc : string) :
  String.rev_app (a +:+ b) acc = String.rev_app b (String.rev_app a acc).
Proof.
  revert acc. induction a as [|c a IH]; intros acc; [done|].
  change (String c a +:+ b) with (String c (a +:+ b)). cbn [String.rev_app]. apply IH.
Qed.

(** A string that is empty or starts with a character that is not white space *)
Lemma trimStart_clean (s : string) :
  trimStart s = "" ∨ ∃ c s', trimStart s = String c s' ∧ is_white_space c = false.
Proof.
  induction s as [|c s IH]; [by left|]. cbn [trimStart].
  destruct (is_white_space c) eqn:Hc; [done|]. right. by exists c, s.
Qed.

Lemma trimStart_snoc (r : string) (c : ascii) :
  is_white_space c = false → ∃ r', trimStart (r +:+ String c "") = r' +:+ String c "".
Proof.
  intros Hc. induction r as [|d r [r' IH]].
  - exists "". change ("" +:+ String c "") with (String c "").
    cbn [trimStart]. by rewrite Hc.
  - change (String d r +:+ String c "") with (String d (r +:+ String c "")).
    cbn [trimStart]. destruct (is_white_space d); [by exists r'|].
    by exists (String d r).
Qed.

Lemma trimEnd_keeps_start (c : ascii) (s : string) :
  is_white_space c = false → ∃ s', trimEnd (String c s) = String c s'.
Proof.
  intros Hc. unfold trimEnd, String.rev at 2. cbn [String.rev_app].
  change (String c "") with ("" +:+ String c ""). rewrite rev_app_append.
  destruct (trimStart_snoc (String.rev_app s "") c Hc) as [r' ->].
  unfold String.rev. rewrite rev_app_of_append. cbn [String.rev_app]. by eexists.
Qed.

Lemma trim_idempotent (s : string) : trim (trim s) = trim s.
Proof.
  unfold trim at 2 3.
  assert (trimStart (trimEnd (trimStart s)) = trimEnd (trimStart s)) as Hstart.
  { destruct (trimStart_clean s) as [->|(c & s' & -> & Hc)]; [done|].
    destruct (trimEnd_keeps_start c s' Hc) as [s'' ->]. cbn [trimStart]. by rewrite Hc. }
  unfold trim. rewrite Hstart. unfold trimEnd at 1.
  unfold trimEnd at 1. rewrite rev_involutive.
  assert (∀ x, trimStart (trimStart x) = trimStart x) as ->; [|done].
  intros x. destruct (trimStart_clean x) as [->|(c & x' & -> & Hc)]; [done|].
  cbn [trimStart]. by rewrite Hc.
Qed.

(** The normalized term is a fixed point of normalization. *)
Lemma normalize_idempotent (s : string) :
  trim (toLowerCase (trim (toLowerCase s))) = trim (toLowerCase s).
Proof. by rewrite toLowerCase_trim, toLowerCase_idempotent, trim_idempotent. Qed.

Section state_extras.
Variable toString_other : number → string.

(** X17: a request whose search term is already in normal form (lower case,
    no white space around it) is answered exactly like the request with the
    raw term: same response, same resulting state, same log lines. *)
Theorem X17_normalized_term_same_answer (st : State) (q : Query) (search : string) :
  q_search q = Some (QStr search) →
  trim (toLowerCase (trim (toLowerCase search))) = trim (toLowerCase search) ∧
  handle_items toString_other st
    {| q_page := q_page q; q_limit := q_limit q;
       q_search := Some (QStr (trim (toLowerCase search))) |}
  = handle_items toString_other st q.
Proof.
  intros Hq. split; [apply normalize_idempotent|].
  rewrite (handle_items_string _ st q search) by (by rewrite Hq).
  rewrite (handle_items_string _ st _ (trim (toLowerCase search))) by done.
  by rewrite normalize_idempotent.
Qed.

Lemma step_keeps_custom_order (st : State) (r : request) :
  is_Some (customOrder st) → is_Some (customOrder (step toString_other st r)).
Proof.
  intros Hst. destruct r as [q|body|body|]; cbn [step]; [| | |done].
  - by rewrite (proj1 (handle_items_keeps toString_other st q)).
  - by destruct (handle_update_order_cases toString_other st body)
      as [(order & _ & _ & ->)|[[msg ->]| ->]].
  - destruct (handle_update_selection_cases st body) as [(id & Hid & Hin)|[_ ->]]; [|done].
    by rewrite (handle_update_selection_accept st body id).
Qed.

(** X18: no request clears a custom order: once one is set, every later
    state has one and [GET /api/state] reports [hasCustomOrder = true]. *)
Theorem X18_custom_order_is_never_cleared (st : State) (rs : list request) :
  is_Some (customOrder st) →
  is_Some (customOrder (foldl (step toString_other) st rs)) ∧
  st_hasCustomOrder (handle_state (foldl (step toString_other) st rs)) = true.
Proof.
  intros Hst.
  assert (is_Some (customOrder (foldl (step toString_other) st rs))) as Hsome.
  { revert st Hst. induction rs as [|r rs IH]; intros st Hst; [done|].
    cbn [foldl]. by apply IH, step_keeps_custom_order. }
  split; [done|]. by apply bool_decide_eq_true.
Qed.

(** X19: in every reachable state each entry of the search cache sits under
    a non-empty term and holds the first 1000 (or all) ids whose numeral
    contains that term, ascending, with [total] their number. *)
Theorem X19_cache_entries_are_scans (st : State) (term : string) (cache : CacheEntry) :
  reachable toString_other st → searchCache st !! term = Some cache →
  term ≠ "" ∧
  cache_ids cache = Qc_of_Z <$> take 1000%nat (matching_ids term) ∧
  cache_total cache = Z.of_nat (length (cache_ids cache)) ∧
  cache_total cache ≤ 1000.
Proof.
  intros Hreach%reachable_cache_consistent Hc.
  destruct (Hreach term cache Hc) as (Hne & Hids & Htot).
  rewrite compute_search_spec, search_cap_eq in Hids.
  split_and!; [done|done|done|].
  rewrite Htot, Hids, length_fmap, length_take. lia.
Qed.
End state_extras.

Section composition_extras.
Variable toString_other : number → string.

Lemma handle_items_item_selected (st : State) (q : Query) (b : ItemsBody) (item : Item) :
  (handle_items toString_other st q).1.1 = Ok200 b → item ∈ items b →
  item_selected item = JSSet.has (selectedItems st) (item_id item).
Proof.
  intros Hb Hitem. destruct (default (QStr "") (q_search q)) as [search| |] eqn:Hs;
    [|unfold handle_items in Hb; by rewrite Hs in Hb..].
  rewrite (handle_items_string _ _ q search) in Hb by done.
  cbv zeta in Hb. cbn [fst snd] in Hb. injection Hb as <-.
  unfold paginate in Hitem. cbn [fst items] in Hitem.
  apply list_elem_of_fmap in Hitem as (id & -> & _). unfold generateItem.
  cbn [item_selected item_id]. by rewrite (proj2 (resolve_ids_keeps st _)).
Qed.

(** X20: after an accepted [update-selection] for [id], every later listing
    that contains [id] (searched, cached or not) shows it with
    [selected] equal to the truth value that was sent, and shows every
    other item with the flag it had before. *)
Theorem X20_selection_shows_in_listing (st : State) (body : json) (id : number)
    (q : Query) (b : ItemsBody) (item : Item) :
  get_field "id" body = Some (JNum id) → in_range id →
  (handle_items toString_other (handle_update_selection st body).2 q).1.1 = Ok200 b →
  item ∈ items b →
  (item_id item = id → item_selected item = truthy (get_field "selected" body)) ∧
  (item_id item ≠ id →
   item_selected item = JSSet.has (selectedItems st) (item_id item)).
Proof.
  intros Hid Hr Hb Hitem.
  rewrite (handle_items_item_selected _ q b item Hb Hitem).
  rewrite (handle_update_selection_accept st body id) by done.
  cbv zeta. cbn [snd selectedItems]. split.
  - intros ->. destruct (truthy _).
    + apply has_spec, elem_of_add. by left.
    + apply has_false. rewrite elem_of_delete. by intros [? _].
  - intros Hne. apply eq_true_iff_eq. rewrite !has_spec. destruct (truthy _).
    + rewrite elem_of_add. split; [by intros [?|?]|by right].
    + rewrite elem_of_delete. tauto.
Qed.
End composition_extras.

(** ** The further properties on concrete requests *)

Lemma X1_witness :
  let st := foldl (step Number_toString) initial_state sample_requests in
  let order := [Qc_of_Z 5; Qc_of_Z 3; Qc_of_Z 9] in
  reachable Number_toString st ∧ customOrder st = Some order ∧
  (Forall in_range order ∧ NoDup order).
Proof.
  intros st order.
  assert (reachable Number_toString st) as Hreach by (exists sample_requests; reflexivity).
  assert (customOrder st = Some order) as Hord by (vm_compute; reflexivity).
  split; [exact Hreach|]. split; [exact Hord|].
  exact (X1_reachable_custom_order_is_valid Number_toString st order Hreach Hord).
Defined.

Lemma X2_witness :
  let st := foldl (step Number_toString) initial_state sample_requests in
  reachable Number_toString st ∧
  (Forall in_range (st_selected (handle_state st)) ∧
   NoDup (st_selected (handle_state st)) ∧
   (∀ id, id ∈ st_selected (handle_state st) ↔ id ∈ selectedItems st) ∧
   st_selectedCount (handle_state st)
   = Z.of_nat (length (st_selected (handle_state st)))).
Proof.
  intros st.
  assert (reachable Number_toString st) as Hreach by (exists sample_requests; reflexivity).
  split; [exact Hreach|].
  exact (X2_reachable_selection_is_valid Number_toString st Hreach).
Defined.

Lemma X5_witness :
  let st := foldl (step Number_toString) initial_state sample_requests in
  let body := setSelected_body 9 true in
  let id := Qc_of_Z 9 in
  reachable Number_toString st ∧ get_field "id" body = Some (JNum id) ∧ in_range id ∧
  (let st' := (handle_update_selection st body).2 in
   let on := truthy (get_field "selected" body) in
   let was := bool_decide (id ∈ selectedItems st) in
   (id ∈ selectedItems st' ↔ on = true) ∧
   (∀ x, x ≠ id → x ∈ selectedItems st' ↔ x ∈ selectedItems st) ∧
   customOrder st' = customOrder st ∧ searchCache st' = searchCache st ∧
   ∃ b, (handle_update_selection st body).1 = Ok200 b ∧
        sel_selectedCount b = st_selectedCount (handle_state st') ∧
        sel_selectedCount b
        = st_selectedCount (handle_state st)
          + (if on then (if was then 0 else 1) else (if was then -1 else 0))).
Proof.
  intros st body id.
  assert (reachable Number_toString st) as Hreach by (exists sample_requests; reflexivity).
  assert (in_range id) as Hr by (split; vm_compute; discriminate).
  split; [exact Hreach|]. split; [reflexivity|]. split; [exact Hr|].
  exact (X5_update_selection_effect Number_toString st body id Hreach eq_refl Hr).
Defined.

Lemma X6_witness :
  let st := foldl (step Number_toString) initial_state sample_requests in
  let q := listItems_query "1" "2" "" in
  let b := {| items := [ {| item_id := Qc_of_Z 5; item_text := "Item 5"; item_selected := false |};
                         {| item_id := Qc_of_Z 3; item_text := "Item 3"; item_selected := true |} ];
              total := 3; hasMore := true; page := Some 1; limit := 2 |} in
  reachable Number_toString st ∧ default (QStr "") (q_search q) = QStr "" ∧
  ascii_only "" = true ∧
  pageNum_of q = Some 1 ∧ limitNum_of q = Some 2 ∧
  (handle_items Number_toString st q).1.1 = Ok200 b ∧
  (let ids := (resolve_ids st (trim (toLowerCase ""))).1.1.1 in
   total b = Z.of_nat (length ids) ∧
   ids_of (items b) = take (Z.to_nat 2) (drop (Z.to_nat ((1 - 1) * 2)) ids) ∧
   (hasMore b = true ↔ 1 * 2 < total b) ∧
   (hasMore b = false → ids_of (items b) = drop (Z.to_nat ((1 - 1) * 2)) ids)).
Proof.
  intros st q b.
  assert (reachable Number_toString st) as Hreach by (exists sample_requests; reflexivity).
  assert ((handle_items Number_toString st q).1.1 = Ok200 b) as Hb
    by (vm_compute; reflexivity).
  split; [exact Hreach|]. split; [reflexivity|]. split; [reflexivity|].
  split; [reflexivity|]. split; [reflexivity|]. split; [exact Hb|].
  exact (X6_total_and_hasMore Number_toString st q "" 1 2 b Hreach eq_refl eq_refl
           eq_refl eq_refl Hb).
Defined.

Lemma X7_witness :
  let st := foldl (step Number_toString) initial_state sample_requests in
  let q := listItems_query "1" "2" "" in
  let b := {| items := [ {| item_id := Qc_of_Z 5; item_text := "Item 5"; item_selected := false |};
                         {| item_id := Qc_of_Z 3; item_text := "Item 3"; item_selected := true |} ];
              total := 3; hasMore := true; page := Some 1; limit := 2 |} in
  (handle_items Number_toString st q).1.1 = Ok200 b ∧
  Forall (λ item,
            (item_selected item = true ↔ item_id item ∈ selectedItems st) ∧
            item_text item = "Item " +:+ number_toString Number_toString (item_id item))
         (items b).
Proof.
  intros st q b.
  assert ((handle_items Number_toString st q).1.1 = Ok200 b) as Hb
    by (vm_compute; reflexivity).
  split; [exact Hb|].
  exact (X7_items_reflect_current_selection Number_toString st q b Hb).
Defined.

Lemma X8_witness :
  let st := initial_state in
  let q := listItems_query "2" "3" "" in
  (customOrder st = None ∨ customOrder st = Some []) ∧
  default (QStr "") (q_search q) = QStr "" ∧ trim (toLowerCase "") = "" ∧
  pageNum_of q = Some 2 ∧ limitNum_of q = Some 3 ∧
  ∃ b, (handle_items Number_toString st q).1.1 = Ok200 b ∧
       ids_of (items b)
       = Qc_of_Z <$> seqZ ((2 - 1) * 3 + 1) (Z.min 3 (1000000 - (2 - 1) * 3)) ∧
       total b = 1000000 ∧ hasMore b = bool_decide (2 * 3 < 1000000) ∧
       (2 ≤ 2 ^ 53 → page b = Some 2).
Proof.
  intros st q.
  split; [left; reflexivity|]. split; [reflexivity|]. split; [reflexivity|].
  split; [reflexivity|]. split; [reflexivity|].
  exact (X8_natural_order_listing Number_toString st q "" 2 3
           (or_introl eq_refl) eq_refl eq_refl eq_refl eq_refl).
Defined.

Lemma X9_witness :
  let ids := Qc_of_Z <$> [5; 3; 9; 7; 1] in
  1 ≤ 2 ∧
  concat ((λ p, ids_of (items (paginate Number_toString initial_state (Some p) (Some 2)
                                 ids 5).1))
            <$> seqZ 1 (Z.of_nat 2))
  = take (2 * Z.to_nat 2) ids.
Proof.
  intros ids. assert (1 ≤ 2) as Hl by lia. split; [exact Hl|].
  exact (X9_pages_concatenate Number_toString initial_state ids 5 2 2 Hl).
Defined.

Lemma X13_witness :
  let st := initial_state in
  let q := listItems_query "1" "5" "Item 5" in
  let b := {| items := []; total := 0; hasMore := false; page := Some 1; limit := 0 |} in
  reachable Number_toString st ∧ default (QStr "") (q_search q) = QStr "Item 5" ∧
  ascii_only "Item 5" = true ∧
  all_digits (trim (toLowerCase "Item 5")) = false ∧
  (handle_items Number_toString st q).1.1 = Ok200 b ∧
  (items b = [] ∧ total b = 0 ∧ hasMore b = false).
Proof.
  intros st q b.
  assert (reachable Number_toString st) as Hreach by (exists []; reflexivity).
  assert (all_digits (trim (toLowerCase "Item 5")) = false) as Hnd by reflexivity.
  assert ((handle_items Number_toString st q).1.1 = Ok200 b) as Hb.
  { rewrite (handle_items_string Number_toString st q "Item 5") by reflexivity.
    rewrite resolve_ids_miss by (reflexivity || discriminate).
    rewrite compute_search_spec, matching_ids_non_digit by reflexivity.
    reflexivity. }
  split; [exact Hreach|]. split; [reflexivity|]. split; [reflexivity|].
  split; [exact Hnd|]. split; [exact Hb|].
  exact (X13_non_digit_search_finds_nothing Number_toString st q "Item 5" b
           Hreach eq_refl eq_refl Hnd Hb).
Defined.

Lemma X14_witness :
  let st := initial_state in
  let q := listItems_query "1" "5" " 42 " in
  reachable Number_toString st ∧ default (QStr "") (q_search q) = QStr " 42 " ∧
  1 ≤ 42 ≤ 1000000 ∧ trim (toLowerCase " 42 ") = decimal 42 ∧
  pageNum_of q = Some 1 ∧ limitNum_of q = Some 5 ∧
  ∃ b rest, (handle_items Number_toString st q).1.1 = Ok200 b ∧
            ids_of (items b) = Qc_of_Z 42 :: rest.
Proof.
  intros st q.
  assert (reachable Number_toString st) as Hreach by (exists []; reflexivity).
  assert (1 ≤ 42 ≤ 1000000) as Hk by lia.
  split; [exact Hreach|]. split; [reflexivity|]. split; [exact Hk|].
  split; [reflexivity|]. split; [reflexivity|]. split; [reflexivity|].
  exact (X14_numeral_search_lists_the_id_first Number_toString st q " 42 " 42 5
           Hreach eq_refl Hk eq_refl eq_refl eq_refl).
Defined.

Lemma X15_witness :
  all_digits "42" = true ∧ "42" ≠ "" ∧
  (item_id <$> old_search_filter "42" old_items = Qc_of_Z <$> matching_ids "42" ∧
   trim (toLowerCase "42") = "42" ∧
   compute_search "42" = take 1000%nat (item_id <$> old_search_filter "42" old_items)).
Proof.
  assert ("42" ≠ "") as Hne by discriminate.
  split; [reflexivity|]. split; [exact Hne|].
  exact (X15_numeral_search_agrees_with_text_search "42" eq_refl Hne).
Defined.

Lemma X16_witness :
  NoDup [5; 3; 9; 77] ∧
  ((∀ x, x ∈ applyCustomOrder (Some [5; 3; 9; 77]) [1; 2; 3; 3; 5] ↔ x ∈ [1; 2; 3; 3; 5]) ∧
   applyCustomOrder (Some [5; 3; 9; 77]) (applyCustomOrder (Some [5; 3; 9; 77]) [1; 2; 3; 3; 5])
   = applyCustomOrder (Some [5; 3; 9; 77]) [1; 2; 3; 3; 5] ∧
   ((∀ x, x ∈ [1; 2; 3; 3; 5] → x ∉ [5; 3; 9; 77]) →
    applyCustomOrder (Some [5; 3; 9; 77]) [1; 2; 3; 3; 5] = [1; 2; 3; 3; 5]) ∧
   ((∀ x, x ∈ [5; 3; 9; 77] ↔ x ∈ [1; 2; 3; 3; 5]) →
    applyCustomOrder (Some [5; 3; 9; 77]) [1; 2; 3; 3; 5] = [5; 3; 9; 77])).
Proof.
  assert (NoDup [5; 3; 9; 77]) as Hord
    by (apply (bool_decide_unpack _); vm_compute; exact I).
  split; [exact Hord|].
  exact (X16_applyCustomOrder_fixpoints [5; 3; 9; 77] [1; 2; 3; 3; 5] Hord).
Defined.

Lemma X17_witness :
  let q := listItems_query "1" "5" "  12 " in
  q_search q = Some (QStr "  12 ") ∧
  (trim (toLowerCase (trim (toLowerCase "  12 "))) = trim (toLowerCase "  12 ") ∧
   handle_items Number_toString initial_state
     {| q_page := q_page q; q_limit := q_limit q;
        q_search := Some (QStr (trim (toLowerCase "  12 "))) |}
   = handle_items Number_toString initial_state q).
Proof.
  intros q. split; [reflexivity|].
  exact (X17_normalized_term_same_answer Number_toString initial_state q "  12 " eq_refl).
Defined.

Lemma X18_witness :
  let st := {| customOrder := Some []; selectedItems := []; searchCache := ∅ |} in
  let rs := [PostUpdateSelection (setSelected_body 3 true);
             PostUpdateOrder (JObj [("order", JStr "none")]); GetState] in
  is_Some (customOrder st) ∧
  (is_Some (customOrder (foldl (step Number_toString) st rs)) ∧
   st_hasCustomOrder (handle_state (foldl (step Number_toString) st rs)) = true).
Proof.
  intros st rs.
  assert (is_Some (customOrder st)) as Hst by (exists []; reflexivity).
  split; [exact Hst|].
  exact (X18_custom_order_is_never_cleared Number_toString st rs Hst).
Defined.

Lemma X19_witness :
  let st := foldl (step Number_toString) initial_state
              [GetItems (listItems_query "1" "5" " 99 ")] in
  let cache := {| cache_ids := compute_search "99";
                  cache_total := Z.of_nat (length (compute_search "99")) |} in
  reachable Number_toString st ∧ searchCache st !! "99" = Some cache ∧
  ("99" ≠ "" ∧
   cache_ids cache = Qc_of_Z <$> take 1000%nat (matching_ids "99") ∧
   cache_total cache = Z.of_nat (length (cache_ids cache)) ∧
   cache_total cache ≤ 1000).
Proof.
  intros st cache.
  assert (reachable Number_toString st) as Hreach
    by (exists [GetItems (listItems_query "1" "5" " 99 ")]; reflexivity).
  assert (searchCache st !! "99" = Some cache) as Hc by (vm_compute; reflexivity).
  split; [exact Hreach|]. split; [exact Hc|].
  exact (X19_cache_entries_are_scans Number_toString st "99" cache Hreach Hc).
Defined.

Lemma X20_witness :
  let st := foldl (step Number_toString) initial_state sample_requests in
  let body := setSelected_body 9 true in
  let q := listItems_query "1" "5" "" in
  let b := {| items := [ {| item_id := Qc_of_Z 5; item_text := "Item 5"; item_selected := false |};
                         {| item_id := Qc_of_Z 3; item_text := "Item 3"; item_selected := true |};
                         {| item_id := Qc_of_Z 9; item_text := "Item 9"; item_selected := true |} ];
              total := 3; hasMore := false; page := Some 1; limit := 3 |} in
  let item := {| item_id := Qc_of_Z 9; item_text := "Item 9"; item_selected := true |} in
  get_field "id" body = Some (JNum (Qc_of_Z 9)) ∧ in_range (Qc_of_Z 9) ∧
  (handle_items Number_toString (handle_update_selection st body).2 q).1.1 = Ok200 b ∧
  item ∈ items b ∧
  ((item_id item = Qc_of_Z 9 →
    item_selected item = truthy (get_field "selected" body)) ∧
   (item_id item ≠ Qc_of_Z 9 →
    item_selected item = JSSet.has (selectedItems st) (item_id item))).
Proof.
  intros st body q b item.
  assert (in_range (Qc_of_Z 9)) as Hr by (split; vm_compute; discriminate).
  assert ((handle_items Number_toString (handle_update_selection st body).2 q).1.1 = Ok200 b)
    as Hb by (vm_compute; reflexivity).
  assert (item ∈ items b) as Hitem by (do 2 right; left).
  split; [reflexivity|]. split; [exact Hr|]. split; [exact Hb|]. split; [exact Hitem|].
  exact (X20_selection_shows_in_listing Number_toString st body (Qc_of_Z 9) q b item
           eq_refl Hr Hb Hitem).
Defined.
